(** * binary_heap.hpp: a fixed-capacity maximum binary heap

    Shallow embedding of [template<class T> class binary_heap] at [T = int].

    - a [size_t] is a [Z] in [[0, 2^64)], arithmetic on it wraps
      ([wrap_size_t]); an [int] is a [Z] in [[INT_MIN, INT_MAX]], arithmetic
      on it that leaves the range is undefined behaviour ([int_arith]);
      [static_cast<int>] of a [size_t] is [cast_int];
    - [std::vector<T>] is a [list Z]; [operator[]] is unchecked in C++, an
      index outside [[0, length)] is undefined behaviour ([heap_get],
      [heap_set]);
    - a member function is a function from the object's state to a
      [result]: normal return with the new state, a thrown
      [std::runtime_error] with the state at the throw, or undefined
      behaviour;
    - the [while] loop of [sift_up], the recursion of [sift_down] and the
      [for] loops of [find] and [build_heap] are fixpoints on a fuel that
      the wrappers compute from the state; [OutOfFuel] is never returned by
      a wrapper (lemmas [*_terminates]). *)

From Stdlib Require Import ZArith Lia.
From stdpp Require Import base list numbers strings sorting.

Local Open Scope Z_scope.

Module BinaryHeap.

(** ** Machine integers *)

Definition INT_MIN : Z := -2147483648.
Definition INT_MAX : Z := 2147483647.
Definition SIZE_MAX : Z := 18446744073709551615.

Definition in_int (z : Z) : bool := (INT_MIN <=? z) && (z <=? INT_MAX).

(** arithmetic modulo 2^64 on [size_t] *)
Definition wrap_size_t (z : Z) : Z := z mod (SIZE_MAX + 1).

(** [static_cast<int>(size_t)], also the implicit conversion *)
Definition cast_int (z : Z) : Z :=
  (z + 2147483648) mod 4294967296 - 2147483648.

(** ** The element type, [T = int] *)

(** elements are [int]s, compared as integers *)
(** [std::numeric_limits<T>::max()] *)
Definition T_max : Z := INT_MAX.
(** [T()], the value a [std::vector<T>(n)] is filled with *)
Definition T_default : Z := 0.
Definition in_T (x : Z) : bool := in_int x.

(** ** The object *)

Record binary_heap : Type := mk_heap {
  _sizeMax : Z;      (* size_t *)
  _size : Z;         (* size_t *)
  _heap : list Z     (* std::vector<T> *)
}.

Definition with_heap (h : binary_heap) (l : list Z) : binary_heap :=
  {| _sizeMax := _sizeMax h; _size := _size h; _heap := l |}.
Definition with_size (h : binary_heap) (s : Z) : binary_heap :=
  {| _sizeMax := _sizeMax h; _size := s; _heap := _heap h |}.

(** ** Results of a member function *)

Inductive result (A : Type) : Type :=
| Ok (a : A) (h : binary_heap)
| Throw (what : string) (h : binary_heap)
| Undefined
| OutOfFuel.
Arguments Ok {A} a h.
Arguments Throw {A} what h.
Arguments Undefined {A}.
Arguments OutOfFuel {A}.

Definition M (A : Type) : Type := binary_heap -> result A.

Definition ret {A} (a : A) : M A := fun h => Ok a h.

Definition bind {A B} (m : M A) (k : A -> M B) : M B :=
  fun h =>
    match m h with
    | Ok a h' => k a h'
    | Throw w h' => Throw w h'
    | Undefined => Undefined
    | OutOfFuel => OutOfFuel
    end.

Notation "x <~ m ;; k" := (bind m (fun x => k))
  (at level 90, m at next level, right associativity).
Notation "m ;;; k" := (bind m (fun _ => k))
  (at level 90, right associativity).

Definition throw {A} (what : string) : M A := fun h => Throw what h.
Definition undefined {A} : M A := fun _ => Undefined.

(** an [int] expression whose mathematical value is [z] *)
Definition int_arith (z : Z) : M Z :=
  if in_int z then ret z else undefined.

(** [this->_heap[i]] as an rvalue *)
Definition heap_get (i : Z) : M Z :=
  fun h =>
    if (0 <=? i) && (i <? Z.of_nat (length (_heap h))) then
      match _heap h !! Z.to_nat i with
      | Some x => Ok x h
      | None => Undefined
      end
    else Undefined.

(** [this->_heap[i] = v] *)
Definition heap_set (i : Z) (v : Z) : M unit :=
  fun h =>
    if (0 <=? i) && (i <? Z.of_nat (length (_heap h))) then
      Ok tt (with_heap h (<[Z.to_nat i := v]> (_heap h)))
    else Undefined.

(** [std::swap(this->_heap[i], this->_heap[j])] *)
Definition heap_swap (i j : Z) : M unit :=
  a <~ heap_get i ;;
  b <~ heap_get j ;;
  heap_set i b ;;;
  heap_set j a.

(** ** Observers *)

Definition size : M Z := fun h => Ok (_size h) h.

Definition empty : M bool :=
  s <~ size ;; ret (if s =? 0 then true else false).

Definition full : M bool :=
  s <~ size ;;
  fun h => if s =? _sizeMax h then Ok true h else Ok false h.

(** ** Index arithmetic, on [int] *)

Definition parent (index : Z) : M Z :=
  a <~ int_arith (index - 1) ;; ret (Z.quot a 2).

Definition left_child (index : Z) : M Z :=
  a <~ int_arith (2 * index) ;; int_arith (a + 1).

Definition right_child (index : Z) : M Z :=
  a <~ int_arith (2 * index) ;; int_arith (a + 2).

(** ** sift_up and sift_down *)

Fixpoint sift_up_loop (fuel : nat) (index : Z) : M unit :=
  match fuel with
  | O => fun _ => OutOfFuel
  | S fuel' =>
      if index >? 0 then
        x <~ heap_get index ;;
        p <~ parent index ;;
        y <~ heap_get p ;;
        if x >? y then
          p1 <~ parent index ;;
          heap_swap p1 index ;;;
          p2 <~ parent index ;;
          sift_up_loop fuel' p2
        else ret tt
      else ret tt
  end.

Definition sift_up (index : Z) : M unit :=
  sift_up_loop (S (Z.to_nat index)) index.

Fixpoint sift_down_rec (fuel : nat) (index : Z) : M unit :=
  match fuel with
  | O => fun _ => OutOfFuel
  | S fuel' =>
      let maxIndex := index in
      child_l <~ left_child index ;;
      child_r <~ right_child index ;;
      s <~ size ;;
      maxIndex <~
        (if child_l <=? cast_int s then
           x <~ heap_get child_l ;;
           y <~ heap_get maxIndex ;;
           ret (if x >? y then child_l else maxIndex)
         else ret maxIndex) ;;
      s <~ size ;;
      maxIndex <~
        (if child_r <=? cast_int s then
           x <~ heap_get child_r ;;
           y <~ heap_get maxIndex ;;
           ret (if x >? y then child_r else maxIndex)
         else ret maxIndex) ;;
      if negb (index =? maxIndex) then
        heap_swap index maxIndex ;;;
        sift_down_rec fuel' maxIndex
      else ret tt
  end.

Definition sift_down (index : Z) : M unit :=
  fun h => sift_down_rec (S (Z.to_nat (cast_int (_size h)))) index h.

(** ** Construction *)

(** [binary_heap(size_t sizeMax)] *)
Definition binary_heap_sized (sizeMax : Z) : binary_heap :=
  {| _sizeMax := sizeMax; _size := 0;
     _heap := replicate (Z.to_nat sizeMax) T_default |}.

Fixpoint build_heap_loop (fuel : nat) (i : Z) : M unit :=
  match fuel with
  | O => fun _ => OutOfFuel
  | S fuel' =>
      if i >=? 0 then
        sift_down i ;;;
        i' <~ int_arith (i - 1) ;;
        build_heap_loop fuel' i'
      else ret tt
  end.

Definition build_heap (v : list Z) : M unit :=
  (fun _ => Ok tt {| _sizeMax := Z.of_nat (length v);
                     _size := Z.of_nat (length v);
                     _heap := v |}) ;;;
  s <~ size ;;
  let i := Z.quot (cast_int s) 2 in
  build_heap_loop (S (Z.to_nat (i + 1))) i.

(** [binary_heap(const std::vector<T>& v)]; the members have no
    initialiser, [build_heap] assigns all three before it reads any *)
Definition binary_heap_of_vector (v : list Z) : result unit :=
  build_heap v {| _sizeMax := 0; _size := 0; _heap := [] |}.

(** ** The public member functions *)

Definition top : M Z := heap_get 0.

Definition extract_top : M Z :=
  top_ <~ heap_get 0 ;;
  s <~ size ;;
  last <~ heap_get (wrap_size_t (s - 1)) ;;
  heap_set 0 last ;;;
  (fun h => Ok tt (with_size h (wrap_size_t (_size h - 1)))) ;;;
  sift_down 0 ;;;
  ret top_.

Definition insert (value : Z) : M unit :=
  f <~ full ;;
  if f then throw "binary_heap is full!"
  else
    (fun h => Ok tt (with_size h (wrap_size_t (_size h + 1)))) ;;;
    s <~ size ;;
    heap_set (wrap_size_t (s - 1)) value ;;;
    s <~ size ;;
    sift_up (cast_int (wrap_size_t (s - 1))).

Definition remove (index : Z) : M unit :=
  heap_set index T_max ;;;
  sift_up index ;;;
  extract_top ;;;
  ret tt.

Definition change_priority (index : Z) (priority : Z) : M unit :=
  old_priority <~ heap_get index ;;
  heap_set index priority ;;;
  if priority >? old_priority then sift_up index
  else sift_down index.

Fixpoint find_loop (fuel : nat) (value : Z) (i : Z) : M Z :=
  match fuel with
  | O => fun _ => OutOfFuel
  | S fuel' =>
      s <~ size ;;
      if i <? s then
        x <~ heap_get i ;;
        if x =? value then ret (cast_int i)
        else find_loop fuel' value (wrap_size_t (i + 1))
      else ret (-1)
  end.

Definition find (value : Z) : M Z :=
  fun h => find_loop (S (Z.to_nat (_size h))) value 0 h.

(** ** Specification vocabulary *)

(** [storage[i]], total: 0 outside the vector *)
Definition sel (l : list Z) (i : Z) : Z := default 0 (l !! Z.to_nat i).

(** the vector after [std::swap(l[i], l[j])] *)
Definition swapZ (l : list Z) (i j : Z) : list Z :=
  <[Z.to_nat j := sel l i]> (<[Z.to_nat i := sel l j]> l).

(** the live range [[0, count)] *)
Definition live (h : binary_heap) : list Z :=
  take (Z.to_nat (_size h)) (_heap h).

Definition child (i c : Z) : Prop := c = 2 * i + 1 \/ c = 2 * i + 2.

(** the max-heap invariant over [[0, n)], as a proposition *)
Definition max_heap (n : Z) (l : list Z) : Prop :=
  forall i c, 0 <= i -> c < n -> child i c -> sel l c <= sel l i.

(** the same, as a check *)
Definition child_ok (n : Z) (l : list Z) (i c : Z) : bool :=
  negb (c <? n) || (sel l c <=? sel l i).
Definition is_max_heap (n : Z) (l : list Z) : bool :=
  forallb (fun i => child_ok n l i (2 * i + 1) && child_ok n l i (2 * i + 2))
          (seqZ 0 n).
Definition heap_ok (h : binary_heap) : bool :=
  is_max_heap (_size h) (_heap h).

(** the counts this class can address: every live index [i] and its
    child indices [2 * i + 2] fit an [int] *)
Definition index_limit : Z := 1073741824.
(** the data model: the vector has [_sizeMax] slots and the count is
    within it, and within what [int] indices address *)
Definition wf (h : binary_heap) : bool :=
  (Z.of_nat (length (_heap h)) =? _sizeMax h) &&
  (0 <=? _size h) && (_size h <=? _sizeMax h) &&
  (_size h <=? index_limit).

(** the invariant holds except between [k] and its parent, and the
    children of [k] are below the parent of [k] *)
Definition up_except (n : Z) (l : list Z) (k : Z) : Prop :=
  (forall i c, 0 <= i -> c < n -> child i c -> c <> k -> sel l c <= sel l i) /\
  (forall p c, 0 <= p -> child p k -> child k c -> c < n -> sel l c <= sel l p).

(** the invariant holds except between [k] and its children, and the
    children of [k] are below the parent of [k] *)
Definition down_except (n : Z) (l : list Z) (k : Z) : Prop :=
  (forall i c, 0 <= i -> c < n -> child i c -> i <> k -> sel l c <= sel l i) /\
  (forall p c, 0 <= p -> child p k -> child k c -> c < n -> sel l c <= sel l p).

(** the index [sift_down] swaps [index] with ([index] itself when it
    stops); both comparisons are guarded by [child <= size] *)
Definition max_index (n : Z) (l : list Z) (k : Z) : Z :=
  let m1 :=
    if 2 * k + 1 <=? n then
      if sel l (2 * k + 1) >? sel l k then 2 * k + 1 else k
    else k in
  if 2 * k + 2 <=? n then
    if sel l (2 * k + 2) >? sel l m1 then 2 * k + 2 else m1
  else m1.

(** every live element is an [int] other than the sentinel *)
Definition no_sentinel (h : binary_heap) : bool :=
  forallb (fun x => in_T x && negb (x =? T_max)) (live h).

Definition shape_eq (h h' : binary_heap) : Prop :=
  length (_heap h') = length (_heap h) /\ _sizeMax h' = _sizeMax h.

(** [m] never throws, and keeps the vector's length and [_sizeMax] *)
Definition quiet {A} (m : M A) : Prop :=
  forall h,
    match m h with
    | Ok _ h' => shape_eq h h'
    | Throw _ _ => False
    | Undefined | OutOfFuel => True
    end.

(** [insert] past the capacity check *)
Definition insert_body (value : Z) : M unit :=
  (fun h => Ok tt (with_size h (wrap_size_t (_size h + 1)))) ;;;
  s <~ size ;;
  heap_set (wrap_size_t (s - 1)) value ;;;
  s <~ size ;;
  sift_up (cast_int (wrap_size_t (s - 1))).

(** ** Clients of the class *)

(** N inserts in order, then N extractions *)
Fixpoint insert_all (vs : list Z) : M unit :=
  match vs with
  | [] => ret tt
  | v :: vs' => insert v ;;; insert_all vs'
  end.

Fixpoint extract_n (n : nat) : M (list Z) :=
  match n with
  | O => ret []
  | S n' => x <~ extract_top ;; xs <~ extract_n n' ;; ret (x :: xs)
  end.

(** the scenario of the specification, on [Heap(capacity=5)] *)
Definition scenario_3_1_4_1_5 : M (Z * list Z * bool) :=
  insert_all [3; 1; 4; 1; 5] ;;;
  t <~ top ;;
  out <~ extract_n 5 ;;
  e <~ empty ;;
  ret (t, out, e).

(** the public interface as a set of calls *)
Inductive op : Type :=
| OpTop
| OpExtractTop
| OpInsert (value : Z)
| OpRemove (index : Z)
| OpChangePriority (index priority : Z)
| OpFind (value : Z)
| OpEmpty
| OpFull
| OpSize.

(** one call, its return value dropped *)
Definition call (o : op) : M unit :=
  match o with
  | OpTop => top ;;; ret tt
  | OpExtractTop => extract_top ;;; ret tt
  | OpInsert value => insert value
  | OpRemove index => remove index
  | OpChangePriority index priority => change_priority index priority
  | OpFind value => find value ;;; ret tt
  | OpEmpty => empty ;;; ret tt
  | OpFull => full ;;; ret tt
  | OpSize => size ;;; ret tt
  end.

(** the object after a sequence of calls, a thrown exception being caught
    by the caller; [None] once a call has undefined behaviour *)
Fixpoint after (ops : list op) (h : binary_heap) : option binary_heap :=
  match ops with
  | [] => Some h
  | o :: ops' =>
      match call o h with
      | Ok _ h' | Throw _ h' => after ops' h'
      | Undefined | OutOfFuel => None
      end
  end.

(** ** Vocabulary for sequences of calls *)

(** the object as the constructor [binary_heap(size_t)] and the calls keep
    it: the vector has [_sizeMax] slots, a [size_t] number of them, and the
    count is within the capacity *)
Definition sized (h : binary_heap) : bool :=
  (Z.of_nat (length (_heap h)) =? _sizeMax h) &&
  (0 <=? _size h) && (_size h <=? _sizeMax h) &&
  (_sizeMax h <=? SIZE_MAX).

(** what a call that returns does to the count *)
Definition size_delta (o : op) : Z :=
  match o with
  | OpInsert _ => 1
  | OpExtractTop | OpRemove _ => -1
  | OpTop | OpChangePriority _ _ | OpFind _ | OpEmpty | OpFull | OpSize => 0
  end.

(** calls other than [remove] and [change_priority] *)
Definition index_free (o : op) : bool :=
  match o with
  | OpRemove _ | OpChangePriority _ _ => false
  | _ => true
  end.

(** successful inserts minus successful extractions and removals *)
Fixpoint net_count (ops : list op) (h : binary_heap) : Z :=
  match ops with
  | [] => 0
  | o :: ops' =>
      match call o h with
      | Ok _ h' => size_delta o + net_count ops' h'
      | Throw _ h' => net_count ops' h'
      | Undefined | OutOfFuel => 0
      end
  end.

(** the caller's checks that the class leaves out: a live index for
    [remove] and [change_priority], a non-empty heap for [top] and
    [extract_top], and room past the live range when [change_priority]
    does not raise the priority (it then sifts down) *)
Definition guarded (o : op) (h : binary_heap) : bool :=
  match o with
  | OpTop | OpExtractTop => 1 <=? _size h
  | OpRemove index => (0 <=? index) && (index <? _size h)
  | OpChangePriority index priority =>
      (0 <=? index) && (index <? _size h) &&
      ((sel (_heap h) index <? priority) || (_size h <? _sizeMax h))
  | OpInsert _ | OpFind _ | OpEmpty | OpFull | OpSize => true
  end.

(** every live element is a value of [T] *)
Definition ints (h : binary_heap) : bool := forallb in_T (live h).

(** ** The specification's sift-up and insert, for comparison *)

(** Following the specification: "SiftUp(index): while [index > 0] and
    [storage[index] > storage[parent(index)]], swap them and set
    [index = parent(index)]", the parent of [i] being the floor of
    [(i-1)/2]. A pure function on the storage, with mathematical
    integers; [steps] bounds the iterations. *)
Fixpoint spec_sift_up (steps : nat) (storage : list Z) (index : Z) : list Z :=
  match steps with
  | O => storage
  | S steps' =>
      let p := (index - 1) / 2 in
      if (0 <? index) && (sel storage p <? sel storage index)
      then spec_sift_up steps' (swapZ storage p index) p
      else storage
  end.

(** Following the specification: "Insert(value): appends [value] at index
    [count], increments [count], then SiftUp(count-1)" *)
Definition spec_insert (h : binary_heap) (value : Z) : binary_heap :=
  let count := _size h in
  let storage := <[Z.to_nat count := value]> (_heap h) in
  {| _sizeMax := _sizeMax h;
     _size := count + 1;
     _heap := spec_sift_up (Z.to_nat count) storage count |}.

(** ** Objects past the range of [int] indices *)

(** the values 0, -1, ..., -(n-1), a max-heap in this order *)
Definition descending (n : Z) : list Z := Z.opp <$> seqZ 0 n.

(** a full heap of 2^30 + 1 elements *)
Definition heap_2_30_plus_1 : binary_heap :=
  mk_heap 1073741825 1073741825 (descending 1073741825).

(** a heap of 2^31 zeros with room for one more element *)
Definition heap_2_31_zeros : binary_heap :=
  mk_heap 2147483649 2147483648 (replicate (Z.to_nat 2147483649) 0).

(** a full heap of 2^31 zeros followed by a 1 *)
Definition heap_one_at_2_31 : binary_heap :=
  mk_heap 2147483649 2147483649 (replicate (Z.to_nat 2147483648) 0 ++ [1]).

(** ** Arrays indexed by [Z] *)

Section Arrays.
Implicit Types (l : list Z) (i j k : Z).

Lemma sel_lookup l i x : l !! Z.to_nat i = Some x -> sel l i = x.
Proof. unfold sel. by intros ->. Qed.

Lemma lookup_sel l i :
  0 <= i < Z.of_nat (length l) -> l !! Z.to_nat i = Some (sel l i).
Proof.
  intros Hi. unfold sel.
  destruct (lookup_lt_is_Some_2 l (Z.to_nat i)) as [x Hx]; [lia|].
  by rewrite Hx.
Qed.

Lemma sel_insert l i j v :
  0 <= i < Z.of_nat (length l) -> 0 <= j ->
  sel (<[Z.to_nat i := v]> l) j = if decide (j = i) then v else sel l j.
Proof.
  intros Hi Hj. unfold sel. case_decide as Hd.
  - subst j. rewrite list_lookup_insert_eq; [done | lia].
  - rewrite list_lookup_insert_ne; [done | lia].
Qed.

Lemma length_swapZ l i j : length (swapZ l i j) = length l.
Proof. unfold swapZ. by rewrite !length_insert. Qed.

Lemma sel_swapZ l i j k :
  0 <= i < Z.of_nat (length l) -> 0 <= j < Z.of_nat (length l) -> 0 <= k ->
  sel (swapZ l i j) k =
    if decide (k = j) then sel l i
    else if decide (k = i) then sel l j else sel l k.
Proof.
  intros Hi Hj Hk. unfold swapZ.
  rewrite sel_insert; [|rewrite length_insert; lia|lia].
  case_decide; [done|]. by rewrite sel_insert.
Qed.

Lemma insert_Permutation (l : list Z) (n : nat) (x y : Z) :
  l !! n = Some x -> <[n := y]> l ≡ₚ y :: delete n l.
Proof.
  revert n. induction l as [|a l IH]; intros [|n] Hn; simplify_eq/=.
  - done.
  - rewrite (IH n Hn). apply perm_swap.
Qed.

Lemma swap_Permutation (l : list Z) (m n : nat) (x y : Z) :
  l !! m = Some x -> l !! n = Some y ->
  <[n := x]> (<[m := y]> l) ≡ₚ l.
Proof.
  intros Hm Hn. destruct (decide (m = n)) as [->|Hne].
  - simplify_eq. rewrite list_insert_insert_eq.
    by rewrite list_insert_id.
  - set (l1 := <[m := y]> l).
    assert (Hl1 : l1 !! n = Some y).
    { unfold l1. by rewrite list_lookup_insert_ne. }
    assert (Hd : delete n l1 ≡ₚ delete m l).
    { apply (inj (cons y)).
      rewrite <- (delete_Permutation l1 n y Hl1).
      unfold l1. by apply insert_Permutation with x. }
    rewrite (insert_Permutation l1 n y x Hl1), Hd.
    symmetry. by apply delete_Permutation.
Qed.

Lemma take_swapZ_Permutation l i j (n : Z) :
  0 <= i < n -> 0 <= j < n -> n <= Z.of_nat (length l) ->
  take (Z.to_nat n) (swapZ l i j) ≡ₚ take (Z.to_nat n) l.
Proof.
  intros Hi Hj Hn. unfold swapZ.
  rewrite !take_insert_lt by lia.
  apply swap_Permutation.
  - rewrite lookup_take_lt by lia. apply lookup_sel. lia.
  - rewrite lookup_take_lt by lia. apply lookup_sel. lia.
Qed.

Lemma elem_of_take_sel l (n : Z) x :
  n <= Z.of_nat (length l) ->
  x ∈ take (Z.to_nat n) l <-> exists i, 0 <= i < n /\ sel l i = x.
Proof.
  intros Hn. rewrite elem_of_take. split.
  - intros (k & Hk & Hlt). exists (Z.of_nat k). split; [lia|].
    apply sel_lookup. by rewrite Nat2Z.id.
  - intros (i & Hi & <-). exists (Z.to_nat i). split; [|lia].
    apply lookup_sel. lia.
Qed.
End Arrays.

(** ** Machine-integer facts *)

Lemma in_int_true z : INT_MIN <= z <= INT_MAX -> in_int z = true.
Proof. unfold in_int, INT_MIN, INT_MAX. lia. Qed.

Lemma cast_int_small z : 0 <= z <= INT_MAX -> cast_int z = z.
Proof.
  unfold cast_int, INT_MAX. intros Hz.
  rewrite Z.mod_small by lia. lia.
Qed.

Lemma wrap_size_t_small z : 0 <= z <= SIZE_MAX -> wrap_size_t z = z.
Proof. unfold wrap_size_t, SIZE_MAX. intros Hz. apply Z.mod_small. lia. Qed.

Lemma quot_parent k : 0 < k -> 0 <= Z.quot (k - 1) 2 < k /\ child (Z.quot (k - 1) 2) k.
Proof.
  intros Hk. rewrite Z.quot_div_nonneg by lia. unfold child.
  pose proof (Z.div_mod (k - 1) 2 ltac:(lia)) as Hd.
  pose proof (Z.mod_pos_bound (k - 1) 2 ltac:(lia)) as Hm.
  lia.
Qed.

(** ** Running the monad *)

Lemma bind_ok {A B} (m : M A) (k : A -> M B) h a h' :
  m h = Ok a h' -> bind m k h = k a h'.
Proof. unfold bind. by intros ->. Qed.

Lemma bind_size {B} (k : Z -> M B) h : bind size k h = k (_size h) h.
Proof. reflexivity. Qed.

Lemma heap_get_ok i h :
  0 <= i < Z.of_nat (length (_heap h)) ->
  heap_get i h = Ok (sel (_heap h) i) h.
Proof.
  intros Hi. unfold heap_get.
  replace ((0 <=? i) && (i <? Z.of_nat (length (_heap h)))) with true by lia.
  by rewrite lookup_sel.
Qed.

Lemma heap_set_ok i v h :
  0 <= i < Z.of_nat (length (_heap h)) ->
  heap_set i v h = Ok tt (with_heap h (<[Z.to_nat i := v]> (_heap h))).
Proof.
  intros Hi. unfold heap_set.
  by replace ((0 <=? i) && (i <? Z.of_nat (length (_heap h)))) with true by lia.
Qed.

Lemma heap_swap_ok i j h :
  0 <= i < Z.of_nat (length (_heap h)) ->
  0 <= j < Z.of_nat (length (_heap h)) ->
  heap_swap i j h = Ok tt (with_heap h (swapZ (_heap h) i j)).
Proof.
  intros Hi Hj. unfold heap_swap.
  rewrite (bind_ok _ _ _ _ _ (heap_get_ok i h Hi)).
  rewrite (bind_ok _ _ _ _ _ (heap_get_ok j h Hj)).
  rewrite (bind_ok _ _ _ _ _ (heap_set_ok i _ h Hi)).
  rewrite heap_set_ok by (simpl; rewrite length_insert; lia).
  done.
Qed.

Lemma int_arith_ok z h : INT_MIN <= z <= INT_MAX -> int_arith z h = Ok z h.
Proof. intros Hz. unfold int_arith. by rewrite in_int_true. Qed.

Lemma parent_ok k h :
  INT_MIN < k <= INT_MAX -> parent k h = Ok (Z.quot (k - 1) 2) h.
Proof.
  intros Hk. unfold parent.
  rewrite (bind_ok _ _ _ _ _ (int_arith_ok (k - 1) h ltac:(unfold INT_MIN in *; lia))).
  done.
Qed.

Lemma left_child_ok k h :
  0 <= k -> 2 * k + 2 <= INT_MAX -> left_child k h = Ok (2 * k + 1) h.
Proof.
  intros Hk Hb. unfold left_child.
  rewrite (bind_ok _ _ _ _ _ (int_arith_ok (2 * k) h ltac:(unfold INT_MIN; lia))).
  apply int_arith_ok. unfold INT_MIN; lia.
Qed.

Lemma right_child_ok k h :
  0 <= k -> 2 * k + 2 <= INT_MAX -> right_child k h = Ok (2 * k + 2) h.
Proof.
  intros Hk Hb. unfold right_child.
  rewrite (bind_ok _ _ _ _ _ (int_arith_ok (2 * k) h ltac:(unfold INT_MIN; lia))).
  apply int_arith_ok. unfold INT_MIN; lia.
Qed.

(** ** The invariant as a check and as a proposition *)

Lemma child_ok_spec n l i c :
  child_ok n l i c = true <-> (c < n -> sel l c <= sel l i).
Proof. unfold child_ok. destruct (Z.ltb_spec c n); simpl; lia. Qed.

Lemma is_max_heap_spec n l :
  is_max_heap n l = true <-> max_heap n l.
Proof.
  unfold is_max_heap, max_heap. rewrite forallb_forall. split.
  - intros H i c Hi Hc Hch.
    assert (Hin : In i (seqZ 0 n)).
    { apply list_elem_of_In, elem_of_seqZ. unfold child in Hch. lia. }
    specialize (H i Hin). apply andb_prop in H as [H1 H2].
    rewrite child_ok_spec in H1, H2. destruct Hch; subst c; auto.
  - intros H i Hin. apply list_elem_of_In, elem_of_seqZ in Hin.
    apply andb_true_intro. rewrite !child_ok_spec.
    split; intros Hc; apply H; unfold child; lia.
Qed.

Lemma wf_spec h :
  wf h = true <->
  Z.of_nat (length (_heap h)) = _sizeMax h /\
  0 <= _size h <= _sizeMax h /\ _size h <= index_limit.
Proof. unfold wf. lia. Qed.

(** ** sift_up restores the invariant *)

Ltac use2 H a b :=
  try (pose proof (H a b ltac:(lia) ltac:(lia) ltac:(lia) ltac:(lia))).
Ltac use_row H a w x y z := use2 H a w; use2 H a x; use2 H a y; use2 H a z.
Ltac use_all H w x y z :=
  use_row H w w x y z; use_row H x w x y z;
  use_row H y w x y z; use_row H z w x y z.

Lemma up_except_root n l : up_except n l 0 -> max_heap n l.
Proof.
  unfold up_except, max_heap, child. intros [H1 _] i c Hi Hc Hch.
  apply H1; lia.
Qed.

Lemma up_except_done n l k p :
  up_except n l k -> 0 <= p -> child p k -> sel l k <= sel l p ->
  max_heap n l.
Proof.
  unfold up_except, max_heap, child. intros [H1 H2] Hp Hpk Hle i c Hi Hc Hch.
  destruct (decide (c = k)) as [->|Hne]; [|apply H1; lia].
  replace i with p by lia. done.
Qed.

Lemma up_except_swap n l k p :
  up_except n l k -> n <= Z.of_nat (length l) ->
  0 <= p -> k < n -> child p k -> sel l p < sel l k ->
  up_except n (swapZ l p k) p.
Proof.
  unfold up_except, child. intros [H1 H2] Hn Hp Hk Hpk Hlt.
  split.
  - intros i c Hi Hc Hch Hne.
    rewrite !sel_swapZ by lia.
    repeat case_decide; use_all H1 i c p k; use_all H2 i c p k; subst; lia.
  - intros q c Hq Hqp Hpc Hc.
    rewrite !sel_swapZ by lia.
    repeat case_decide; use_all H1 q c p k; use_all H2 q c p k; subst; lia.
Qed.

Lemma max_heap_raise n l k v :
  max_heap n l -> 0 <= k < n -> n <= Z.of_nat (length l) -> sel l k <= v ->
  up_except n (<[Z.to_nat k := v]> l) k.
Proof.
  unfold up_except, max_heap, child. intros H Hk Hn Hv. split.
  - intros i c Hi Hc Hch Hne.
    rewrite !sel_insert by lia.
    pose proof (H i c ltac:(lia) ltac:(lia) ltac:(lia)).
    repeat case_decide; subst; lia.
  - intros p c Hp Hpk Hkc Hc.
    rewrite !sel_insert by lia.
    pose proof (H p k ltac:(lia) ltac:(lia) ltac:(lia)).
    pose proof (H k c ltac:(lia) ltac:(lia) ltac:(lia)).
    repeat case_decide; subst; lia.
Qed.

Lemma max_heap_append n l v :
  max_heap n l -> 0 <= n < Z.of_nat (length l) ->
  up_except (n + 1) (<[Z.to_nat n := v]> l) n.
Proof.
  unfold up_except, max_heap, child. intros H Hn. split.
  - intros i c Hi Hc Hch Hne.
    rewrite !sel_insert by lia.
    pose proof (H i c ltac:(lia) ltac:(lia) ltac:(lia)).
    repeat case_decide; subst; lia.
  - intros p c Hp Hpk Hkc Hc. lia.
Qed.

Lemma sift_up_loop_spec fuel : forall k sm n l,
  (Z.to_nat k < fuel)%nat ->
  0 <= k < n -> n <= Z.of_nat (length l) -> n <= INT_MAX ->
  up_except n l k ->
  exists l',
    sift_up_loop fuel k (mk_heap sm n l) = Ok tt (mk_heap sm n l') /\
    length l' = length l /\ max_heap n l' /\
    take (Z.to_nat n) l' ≡ₚ take (Z.to_nat n) l.
Proof.
  induction fuel as [|fuel IH]; intros k sm n l Hf Hk Hn Hmax Hup; [lia|].
  simpl. destruct (Z.gtb_spec k 0) as [Hpos|Hz].
  - destruct (quot_parent k Hpos) as [Hp Hch].
    set (p := Z.quot (k - 1) 2) in *.
    set (h := mk_heap sm n l).
    rewrite (bind_ok _ _ _ _ _ (heap_get_ok k h ltac:(simpl; lia))).
    rewrite (bind_ok _ _ _ _ _ (parent_ok k h ltac:(unfold INT_MIN; lia))).
    fold p.
    rewrite (bind_ok _ _ _ _ _ (heap_get_ok p h ltac:(simpl; lia))).
    simpl. destruct (Z.gtb_spec (sel l k) (sel l p)) as [Hgt|Hle].
    + rewrite (bind_ok _ _ _ _ _ (parent_ok k h ltac:(unfold INT_MIN; lia))).
      fold p.
      rewrite (bind_ok _ _ _ _ _
                 (heap_swap_ok p k h ltac:(simpl; lia) ltac:(simpl; lia))).
      rewrite (bind_ok _ _ _ _ _ (parent_ok k _ ltac:(unfold INT_MIN; lia))).
      fold p. simpl.
      destruct (IH p sm n (swapZ l p k)) as (l' & Hrun & Hlen & Hheap & Hperm).
      * lia.
      * lia.
      * rewrite length_swapZ. lia.
      * done.
      * apply up_except_swap; try done; lia.
      * exists l'. split; [done|]. rewrite Hlen, length_swapZ.
        split; [done|]. split; [done|].
        rewrite Hperm. apply take_swapZ_Permutation; lia.
    + exists l. repeat split; try done.
      eapply up_except_done; eauto. lia.
  - exists l. repeat split; try done.
    apply up_except_root. by replace k with 0 in Hup by lia.
Qed.

(** ** sift_down *)

Lemma pick_ok c m h :
  0 <= c < Z.of_nat (length (_heap h)) ->
  0 <= m < Z.of_nat (length (_heap h)) ->
  (x <~ heap_get c ;; y <~ heap_get m ;;
   ret (if x >? y then c else m)) h
  = Ok (if sel (_heap h) c >? sel (_heap h) m then c else m) h.
Proof.
  intros Hc Hm.
  rewrite (bind_ok _ _ _ _ _ (heap_get_ok c h Hc)).
  by rewrite (bind_ok _ _ _ _ _ (heap_get_ok m h Hm)).
Qed.

Lemma max_index_range n l k :
  0 <= k -> let m := max_index n l k in m = k \/ (child k m /\ m <= n).
Proof.
  intros Hk. unfold max_index, child.
  repeat (case_match; try lia).
Qed.

(** one unfolding of the recursion, when the slots it reads exist *)
Lemma sift_down_rec_step fuel k sm n l :
  0 <= k < Z.of_nat (length l) -> 0 <= n < Z.of_nat (length l) ->
  2 * k + 2 <= INT_MAX -> n <= INT_MAX ->
  sift_down_rec (S fuel) k (mk_heap sm n l) =
    let m := max_index n l k in
    if negb (k =? m) then sift_down_rec fuel m (mk_heap sm n (swapZ l k m))
    else Ok tt (mk_heap sm n l).
Proof.
  intros Hk Hn Hov Hmax. set (h := mk_heap sm n l).
  cbn [sift_down_rec].
  rewrite (bind_ok _ _ _ _ _ (left_child_ok k h ltac:(lia) Hov)).
  rewrite (bind_ok _ _ _ _ _ (right_child_ok k h ltac:(lia) Hov)).
  rewrite (bind_ok size _ h n h eq_refl).
  rewrite cast_int_small by lia.
  assert (Hm1 : exists m1,
     m1 = (if 2 * k + 1 <=? n then
             if sel l (2 * k + 1) >? sel l k then 2 * k + 1 else k
           else k) /\ 0 <= m1 < Z.of_nat (length l)).
  { eexists; split; [reflexivity|]. repeat case_match; lia. }
  destruct Hm1 as (m1 & Hm1 & Hb1).
  erewrite (bind_ok _ _ h m1 h).
  2:{ destruct (Z.leb_spec (2 * k + 1) n).
      - rewrite pick_ok by (simpl; lia). by rewrite Hm1.
      - by rewrite Hm1. }
  rewrite (bind_ok size _ h n h eq_refl).
  rewrite cast_int_small by lia.
  erewrite (bind_ok _ _ h (max_index n l k) h).
  2:{ unfold max_index. rewrite <- Hm1.
      destruct (Z.leb_spec (2 * k + 2) n).
      - by rewrite pick_ok by (simpl; lia).
      - done. }
  pose proof (max_index_range n l k ltac:(lia)) as Hr. cbv zeta in *.
  destruct (Z.eqb_spec k (max_index n l k)) as [He|Hne]; simpl; [done|].
  rewrite (bind_ok _ _ _ _ _
             (heap_swap_ok k (max_index n l k) h ltac:(simpl; lia)
                ltac:(unfold child in Hr; simpl; lia))).
  done.
Qed.

Lemma down_except_done n l k :
  down_except n l k ->
  (forall c, child k c -> c < n -> sel l c <= sel l k) ->
  max_heap n l.
Proof.
  unfold down_except, max_heap, child. intros [H1 H2] Hk i c Hi Hc Hch.
  destruct (decide (i = k)) as [->|Hne]; [by apply Hk|apply H1; lia].
Qed.

Lemma down_except_swap n l k m :
  down_except n l k -> n <= Z.of_nat (length l) ->
  0 <= k -> child k m -> m < n -> sel l k < sel l m ->
  (forall c, child k c -> c < n -> sel l c <= sel l m) ->
  down_except n (swapZ l k m) m.
Proof.
  unfold down_except, child. intros [H1 H2] Hn Hk Hkm Hm Hlt Hmax.
  split.
  - intros i c Hi Hc Hch Hne.
    rewrite !sel_swapZ by lia.
    pose proof (Hmax c) as Hmc.
    repeat case_decide; use_all H1 i c m k; use_all H2 i c m k; subst; lia.
  - intros q c Hq Hqp Hpc Hc.
    rewrite !sel_swapZ by lia.
    repeat case_decide; use_all H1 q c m k; use_all H2 q c m k; subst; lia.
Qed.

(** when the slot just past the live range holds nothing larger than the
    element being sifted, the comparison against it never wins *)
Lemma max_index_spec n l k :
  0 <= k < n -> sel l n <= sel l k ->
  let m := max_index n l k in
  (m = k /\ forall c, child k c -> c < n -> sel l c <= sel l k) \/
  (child k m /\ m < n /\ sel l k < sel l m /\
   forall c, child k c -> c < n -> sel l c <= sel l m).
Proof.
  intros Hk Hst. unfold max_index, child. cbv zeta.
  destruct (decide (2 * k + 1 = n)) as [E1|N1];
    [rewrite <- E1 in Hst|];
  (destruct (decide (2 * k + 2 = n)) as [E2|N2];
    [try lia; rewrite <- E2 in Hst|]);
  repeat (case_match; try lia);
  try (left; split; [done|intros c [->| ->] Hc; lia]);
  try (right; split; [lia|split; [lia|split; [lia|intros c [->| ->] Hc; lia]]]).
Qed.

Lemma sift_down_rec_spec fuel : forall k sm n l,
  (Z.to_nat (n - k) < fuel)%nat ->
  0 <= k < n -> n < Z.of_nat (length l) -> n < index_limit ->
  down_except n l k -> sel l n <= sel l k ->
  exists l',
    sift_down_rec fuel k (mk_heap sm n l) = Ok tt (mk_heap sm n l') /\
    length l' = length l /\ max_heap n l' /\
    take (Z.to_nat n) l' ≡ₚ take (Z.to_nat n) l.
Proof.
  induction fuel as [|fuel IH]; intros k sm n l Hf Hk Hn Hlim Hd Hst; [lia|].
  unfold index_limit in Hlim.
  rewrite sift_down_rec_step by (unfold INT_MAX; lia).
  cbv zeta.
  destruct (max_index_spec n l k Hk Hst) as [[Hm Hall]|(Hch & Hm & Hlt & Hall)].
  - rewrite Hm, Z.eqb_refl. simpl. exists l. repeat split; try done.
    by eapply down_except_done.
  - set (m := max_index n l k) in *.
    assert (Hkm : k < m) by (unfold child in Hch; lia).
    destruct (Z.eqb_spec k m) as [He|_]; [lia|]. simpl.
    destruct (IH m sm n (swapZ l k m)) as (l' & Hrun & Hlen & Hheap & Hperm).
    + lia.
    + lia.
    + rewrite length_swapZ. lia.
    + done.
    + apply down_except_swap; try done; lia.
    + rewrite !sel_swapZ by lia. repeat case_decide; lia.
    + exists l'. split; [done|]. rewrite Hlen, length_swapZ.
      split; [done|]. split; [done|].
      rewrite Hperm. apply take_swapZ_Permutation; lia.
Qed.

(** ** insert and extract_top on a heap that satisfies the invariant *)

Lemma root_max n l :
  max_heap n l -> forall i, 0 <= i < n -> sel l i <= sel l 0.
Proof.
  intros H.
  assert (Hind : forall (m : nat) i,
            0 <= i < n -> (Z.to_nat i < m)%nat -> sel l i <= sel l 0).
  { induction m as [|m IHm]; intros i Hi Hm; [lia|].
    destruct (decide (i = 0)) as [->|Hne]; [lia|].
    destruct (quot_parent i ltac:(lia)) as [Hp Hc].
    pose proof (H (Z.quot (i - 1) 2) i ltac:(lia) ltac:(lia) Hc).
    pose proof (IHm (Z.quot (i - 1) 2) ltac:(lia) ltac:(lia)).
    lia. }
  intros i Hi. apply (Hind (S (Z.to_nat i))); lia.
Qed.

Lemma full_false sm n l :
  n <> sm -> full (mk_heap sm n l) = Ok false (mk_heap sm n l).
Proof. intros Hne. unfold full, bind, size. simpl. by destruct (Z.eqb_spec n sm). Qed.

Lemma full_true sm n l :
  n = sm -> full (mk_heap sm n l) = Ok true (mk_heap sm n l).
Proof. intros He. unfold full, bind, size. simpl. by destruct (Z.eqb_spec n sm). Qed.

Lemma insert_spec v sm n l :
  0 <= n < sm -> Z.of_nat (length l) = sm -> n <= index_limit ->
  max_heap n l ->
  exists l',
    insert v (mk_heap sm n l) = Ok tt (mk_heap sm (n + 1) l') /\
    length l' = length l /\ max_heap (n + 1) l' /\
    take (Z.to_nat (n + 1)) l' ≡ₚ v :: take (Z.to_nat n) l.
Proof.
  intros Hn Hlen Hlim Hheap. unfold index_limit in Hlim. unfold insert.
  rewrite (bind_ok _ _ _ _ _ (full_false sm n l ltac:(lia))).
  erewrite (bind_ok _ _ _ tt (mk_heap sm (n + 1) l)).
  2:{ unfold with_size. simpl. f_equal. f_equal.
      apply wrap_size_t_small. unfold SIZE_MAX. lia. }
  rewrite bind_size. cbn [_size].
  replace (n + 1 - 1) with n by lia.
  rewrite wrap_size_t_small by (unfold SIZE_MAX; lia).
  rewrite (bind_ok _ _ _ _ _
             (heap_set_ok n v (mk_heap sm (n + 1) l) ltac:(simpl; lia))).
  unfold with_heap. cbn [_size _heap _sizeMax].
  rewrite bind_size. cbn [_size].
  replace (n + 1 - 1) with n by lia.
  rewrite wrap_size_t_small by (unfold SIZE_MAX; lia).
  rewrite cast_int_small by (unfold INT_MAX; lia).
  unfold sift_up.
  destruct (sift_up_loop_spec (S (Z.to_nat n)) n sm (n + 1)
              (<[Z.to_nat n := v]> l))
    as (l' & Hrun & Hlen' & Hheap' & Hperm).
  - lia.
  - lia.
  - rewrite length_insert. lia.
  - unfold INT_MAX. lia.
  - apply max_heap_append; [done|lia].
  - exists l'. split; [done|]. rewrite Hlen', length_insert.
    split; [done|]. split; [done|].
    rewrite Hperm. replace (Z.to_nat (n + 1)) with (S (Z.to_nat n)) by lia.
    rewrite (take_S_r _ _ v) by (apply list_lookup_insert_eq; lia).
    rewrite take_insert_ge by lia.
    by rewrite Permutation_app_comm.
Qed.

Lemma max_heap_replace_root n l x :
  max_heap (n + 1) l -> 0 < n -> n < Z.of_nat (length l) ->
  down_except n (<[Z.to_nat 0 := x]> l) 0.
Proof.
  unfold max_heap, down_except, child. intros H Hn Hlen. split.
  - intros i c Hi Hc Hch Hne.
    rewrite !sel_insert by lia.
    pose proof (H i c ltac:(lia) ltac:(lia) ltac:(lia)).
    repeat case_decide; lia.
  - intros p c Hp Hp0. lia.
Qed.

Lemma extract_top_spec sm n l :
  0 < n <= sm -> Z.of_nat (length l) = sm -> n <= index_limit ->
  max_heap n l ->
  exists l',
    extract_top (mk_heap sm n l) = Ok (sel l 0) (mk_heap sm (n - 1) l') /\
    length l' = length l /\ max_heap (n - 1) l' /\
    take (Z.to_nat n) l ≡ₚ sel l 0 :: take (Z.to_nat (n - 1)) l'.
Proof.
  intros Hn Hlen Hlim Hheap. unfold index_limit in Hlim. unfold extract_top.
  set (h := mk_heap sm n l).
  rewrite (bind_ok _ _ _ _ _ (heap_get_ok 0 h ltac:(simpl; lia))).
  rewrite bind_size. cbn [_size h].
  rewrite wrap_size_t_small by (unfold SIZE_MAX; lia).
  rewrite (bind_ok _ _ _ _ _ (heap_get_ok (n - 1) h ltac:(simpl; lia))).
  rewrite (bind_ok _ _ _ _ _ (heap_set_ok 0 _ h ltac:(simpl; lia))).
  cbn [_heap h]. set (x := sel l (n - 1)). set (l1 := <[Z.to_nat 0 := x]> l).
  erewrite (bind_ok _ _ _ tt (mk_heap sm (n - 1) l1)).
  2:{ unfold with_size, with_heap. simpl. f_equal. f_equal.
      apply wrap_size_t_small. unfold SIZE_MAX. lia. }
  assert (Hl1 : length l1 = length l) by apply length_insert.
  assert (Htake : take (Z.to_nat n) l ≡ₚ x :: take (Z.to_nat (n - 1)) l).
  { replace (Z.to_nat n) with (S (Z.to_nat (n - 1))) by lia.
    rewrite (take_S_r _ _ x) by (apply lookup_sel; lia).
    by rewrite Permutation_app_comm. }
  destruct (decide (n = 1)) as [->|Hn1].
  - exists l1. replace (1 - 1) with 0 by lia.
    assert (Hsd : sift_down 0 (mk_heap sm 0 l1) = Ok tt (mk_heap sm 0 l1)).
    { unfold sift_down.
      rewrite sift_down_rec_step by (rewrite ?Hl1; unfold INT_MAX; lia).
      reflexivity. }
    rewrite (bind_ok _ _ _ _ _ Hsd).
    split; [done|]. split; [done|]. split.
    + intros i c Hi Hc Hch. unfold child in Hch. lia.
    + simpl. destruct l as [|a l0]; [simpl in *; lia|done].
  - destruct (sift_down_rec_spec (S (Z.to_nat (cast_int (n - 1)))) 0 sm
                (n - 1) l1)
      as (l' & Hrun & Hlen' & Hheap' & Hperm).
    + rewrite cast_int_small by (unfold INT_MAX; lia). lia.
    + lia.
    + lia.
    + unfold index_limit. lia.
    + apply max_heap_replace_root; [|lia|lia].
      by replace (n - 1 + 1) with n by lia.
    + unfold l1. rewrite !sel_insert by lia.
      repeat case_decide; lia.
    + exists l'.
      assert (Hsd : sift_down 0 (mk_heap sm (n - 1) l1)
                    = Ok tt (mk_heap sm (n - 1) l')) by exact Hrun.
      rewrite (bind_ok _ _ _ _ _ Hsd).
      split; [done|]. split; [congruence|]. split; [done|].
      rewrite Hperm, Htake. unfold l1.
      rewrite take_insert_lt by lia.
      assert (H0 : take (Z.to_nat (n - 1)) l !! Z.to_nat 0 = Some (sel l 0)).
      { rewrite lookup_take_lt by lia. apply lookup_sel. lia. }
      rewrite (insert_Permutation _ _ _ x H0).
      rewrite (delete_Permutation _ _ _ H0) at 1.
      apply perm_swap.
Qed.

(** ** A client: N inserts, then N extractions *)

Lemma insert_all_spec vs : forall sm n l,
  0 <= n -> n + Z.of_nat (length vs) <= sm -> Z.of_nat (length l) = sm ->
  n + Z.of_nat (length vs) <= index_limit -> max_heap n l ->
  exists l',
    insert_all vs (mk_heap sm n l)
      = Ok tt (mk_heap sm (n + Z.of_nat (length vs)) l') /\
    length l' = length l /\ max_heap (n + Z.of_nat (length vs)) l' /\
    take (Z.to_nat (n + Z.of_nat (length vs))) l' ≡ₚ vs ++ take (Z.to_nat n) l.
Proof.
  induction vs as [|v vs IH]; intros sm n l Hn Hcap Hlen Hlim Hheap.
  - exists l. simpl. rewrite Z.add_0_r. done.
  - simpl length in *.
    destruct (insert_spec v sm n l) as (l1 & Hrun & Hlen1 & Hheap1 & Hperm1);
      [lia|done|lia|done|].
    destruct (IH sm (n + 1) l1) as (l' & Hrun' & Hlen' & Hheap' & Hperm');
      [lia|lia|lia|lia|done|].
    replace (n + 1 + Z.of_nat (length vs))
      with (n + Z.of_nat (S (length vs))) in * by lia.
    exists l'. cbn [insert_all].
    rewrite (bind_ok _ _ _ _ _ Hrun).
    split; [done|]. split; [congruence|]. split; [done|].
    rewrite Hperm', Hperm1. simpl. by rewrite Permutation_middle.
Qed.

Lemma extract_n_spec k : forall sm n l,
  Z.of_nat k <= n <= sm -> Z.of_nat (length l) = sm ->
  n <= index_limit -> max_heap n l ->
  exists out l',
    extract_n k (mk_heap sm n l) = Ok out (mk_heap sm (n - Z.of_nat k) l') /\
    length l' = length l /\ max_heap (n - Z.of_nat k) l' /\
    take (Z.to_nat n) l ≡ₚ out ++ take (Z.to_nat (n - Z.of_nat k)) l' /\
    StronglySorted Z.ge out /\ length out = k.
Proof.
  induction k as [|k IH]; intros sm n l Hk Hlen Hlim Hheap.
  - exists [], l. simpl. rewrite Z.sub_0_r.
    repeat split; try done. constructor.
  - destruct (extract_top_spec sm n l) as (l1 & Hrun & Hlen1 & Hheap1 & Hperm1);
      [lia|done|done|done|].
    destruct (IH sm (n - 1) l1)
      as (out & l' & Hrun' & Hlen' & Hheap' & Hperm' & Hsorted & Hout);
      [lia|lia|lia|done|].
    replace (n - 1 - Z.of_nat k) with (n - Z.of_nat (S k)) in * by lia.
    exists (sel l 0 :: out), l'. cbn [extract_n].
    rewrite (bind_ok _ _ _ _ _ Hrun), (bind_ok _ _ _ _ _ Hrun').
    split; [done|]. split; [congruence|]. split; [done|].
    split; [by rewrite Hperm1, Hperm'|]. split; [|simpl; congruence].
    constructor; [done|].
    apply Forall_forall. intros y Hy.
    assert (Hin : y ∈ take (Z.to_nat n) l).
    { rewrite Hperm1, Hperm', elem_of_cons, elem_of_app.
      right. by left. }
    apply elem_of_take_sel in Hin as (i & Hi & <-); [|lia].
    apply Z.le_ge. by apply (root_max n).
Qed.

(** C2 (as amended): on a heap built with [binary_heap(capacity)],
    inserting N values, N at most the capacity and at most 2^30 (so that
    every child index [2 * i + 2] fits an [int]), and then calling
    [extract_top] N times returns these N values in non-increasing order
    and leaves the heap empty; on [Heap(capacity=5)], inserting 3,1,4,1,5
    gives [top() == 5], the five extractions return 5,4,3,1,1 and
    [empty()] is then true. *)
Theorem insert_then_extract_sorted (capacity : Z) (vs : list Z)
  (Hcap : Z.of_nat (length vs) <= capacity)
  (Hlim : Z.of_nat (length vs) <= index_limit) :
  (exists out h',
     (insert_all vs ;;; extract_n (length vs)) (binary_heap_sized capacity)
       = Ok out h' /\
     out ≡ₚ vs /\ StronglySorted Z.ge out /\ length out = length vs /\
     empty h' = Ok true h') /\
  (exists h',
     scenario_3_1_4_1_5 (binary_heap_sized 5)
       = Ok (5, [5; 4; 3; 1; 1], true) h').
Proof.
  split; [|eexists; vm_compute; reflexivity].
  set (l0 := replicate (Z.to_nat capacity) T_default).
  assert (Hl0 : Z.of_nat (length l0) = capacity).
  { unfold l0. rewrite length_replicate. lia. }
  destruct (insert_all_spec vs capacity 0 l0)
    as (l1 & Hrun1 & Hlen1 & Hheap1 & Hperm1); [lia|lia|done|lia| |].
  { intros i c Hi Hc Hch. unfold child in Hch. lia. }
  rewrite Z.add_0_l in *.
  destruct (extract_n_spec (length vs) capacity (Z.of_nat (length vs)) l1)
    as (out & l' & Hrun2 & Hlen2 & Hheap2 & Hperm2 & Hsorted & Hout);
    [lia|lia|done|done|].
  rewrite Z.sub_diag in *. simpl in Hperm1, Hperm2.
  rewrite !app_nil_r in *.
  exists out, (mk_heap capacity 0 l').
  unfold binary_heap_sized. fold l0.
  rewrite (bind_ok _ _ _ _ _ Hrun1).
  split; [done|]. split; [by rewrite <- Hperm2, Hperm1|].
  split; [done|]. split; [done|]. reflexivity.
Qed.

(** ** remove *)

Lemma no_sentinel_le h x : no_sentinel h = true -> x ∈ live h -> x <= T_max.
Proof.
  unfold no_sentinel. rewrite forallb_forall. intros H Hx%list_elem_of_In.
  specialize (H x Hx). unfold in_T, in_int, T_max in *. lia.
Qed.

(** C5 (as amended): on a heap of the data model (count at most 2^30)
    that satisfies the invariant, with [0 <= index < count] and no live
    element equal to [numeric_limits<T>::max()], [remove(index)] writes the
    sentinel at [index], sifts it up and extracts it from the top;
    afterwards the count is one less, the live elements are the old ones
    without one occurrence of the removed element, and the invariant
    holds. *)
Theorem remove_deletes_index (h : binary_heap) (index : Z)
  (Hwf : wf h = true) (Hheap : heap_ok h = true)
  (Hindex : 0 <= index < _size h) (Hsent : no_sentinel h = true) :
  exists h1 h2 h',
    heap_set index T_max h = Ok tt h1 /\
    sift_up index h1 = Ok tt h2 /\
    extract_top h2 = Ok T_max h' /\
    remove index h = Ok tt h' /\
    _size h' = _size h - 1 /\ _sizeMax h' = _sizeMax h /\
    live h ≡ₚ sel (_heap h) index :: live h' /\
    heap_ok h' = true /\ wf h' = true.
Proof.
  destruct h as [sm n l]. apply wf_spec in Hwf as (Hlen & Hn & Hlim).
  unfold heap_ok in *. rewrite is_max_heap_spec in Hheap.
  cbn [_size _heap _sizeMax] in *.
  assert (Hle : forall x, x ∈ take (Z.to_nat n) l -> x <= T_max).
  { intros x Hx. by apply (no_sentinel_le (mk_heap sm n l)). }
  set (l1 := <[Z.to_nat index := T_max]> l).
  assert (Hl1 : length l1 = length l) by apply length_insert.
  assert (Hidx : take (Z.to_nat n) l !! Z.to_nat index = Some (sel l index)).
  { rewrite lookup_take_lt by lia. apply lookup_sel. lia. }
  assert (Hp1 : take (Z.to_nat n) l1
                ≡ₚ T_max :: delete (Z.to_nat index) (take (Z.to_nat n) l)).
  { unfold l1. rewrite take_insert_lt by lia.
    by apply insert_Permutation with (sel l index). }
  pose proof (delete_Permutation _ _ _ Hidx) as Hp0.
  destruct (sift_up_loop_spec (S (Z.to_nat index)) index sm n l1)
    as (l2 & Hrun2 & Hlen2 & Hheap2 & Hperm2).
  { lia. } { lia. } { lia. } { unfold index_limit, INT_MAX in *. lia. }
  { apply max_heap_raise; [done|lia|lia|].
    apply Hle. apply elem_of_take_sel; [lia|]. by exists index. }
  destruct (extract_top_spec sm n l2)
    as (l3 & Hrun3 & Hlen3 & Hheap3 & Hperm3); [lia|lia|done|done|].
  assert (Htop : sel l2 0 = T_max).
  { apply Z.le_antisymm.
    - assert (Hin : sel l2 0 ∈ take (Z.to_nat n) l2).
      { apply elem_of_take_sel; [lia|]. exists 0. split; [lia|done]. }
      rewrite Hperm2, Hp1, elem_of_cons in Hin.
      destruct Hin as [->|Hin]; [done|].
      apply Hle. rewrite Hp0, elem_of_cons. by right.
    - assert (Hin : T_max ∈ take (Z.to_nat n) l2).
      { rewrite Hperm2, Hp1, elem_of_cons. by left. }
      apply elem_of_take_sel in Hin as (i & Hi & <-); [|lia].
      by apply (root_max n). }
  rewrite Htop in *.
  exists (mk_heap sm n l1), (mk_heap sm n l2), (mk_heap sm (n - 1) l3).
  assert (Hset : heap_set index T_max (mk_heap sm n l) = Ok tt (mk_heap sm n l1)).
  { by rewrite heap_set_ok by (simpl; lia). }
  split; [done|]. split; [done|]. split; [done|]. split.
  { unfold remove.
    rewrite (bind_ok _ _ _ _ _ Hset).
    rewrite (bind_ok (sift_up index) _ _ _ _ Hrun2).
    by rewrite (bind_ok _ _ _ _ _ Hrun3). }
  cbn [_size _heap _sizeMax]. split; [done|]. split; [done|].
  split; [|split].
  - unfold live. cbn [_size _heap]. rewrite Hp0. f_equiv.
    apply (inj (cons T_max)). by rewrite <- Hperm3, Hperm2, Hp1.
  - by apply is_max_heap_spec.
  - apply wf_spec. cbn [_size _heap _sizeMax]. lia.
Qed.

Lemma remove_deletes_index_witness :
  exists h1 h2 h',
    let h := mk_heap 4 4 [9; 7; 8; 3] in
    heap_set 1 T_max h = Ok tt h1 /\
    sift_up 1 h1 = Ok tt h2 /\
    extract_top h2 = Ok T_max h' /\
    remove 1 h = Ok tt h' /\
    _size h' = _size h - 1 /\ _sizeMax h' = _sizeMax h /\
    live h ≡ₚ sel (_heap h) 1 :: live h' /\
    heap_ok h' = true /\ wf h' = true.
Proof.
  apply (remove_deletes_index (mk_heap 4 4 [9; 7; 8; 3]) 1);
    [reflexivity|reflexivity|simpl; lia|reflexivity].
Defined.

Lemma insert_then_extract_sorted_witness :
  (exists out h',
     (insert_all [2; 7; 1] ;;; extract_n 3) (binary_heap_sized 4) = Ok out h' /\
     out ≡ₚ [2; 7; 1] /\ StronglySorted Z.ge out /\ length out = 3%nat /\
     empty h' = Ok true h') /\
  (exists h',
     scenario_3_1_4_1_5 (binary_heap_sized 5)
       = Ok (5, [5; 4; 3; 1; 1], true) h').
Proof.
  apply (insert_then_extract_sorted 4 [2; 7; 1]);
    simpl; unfold index_limit; lia.
Defined.

(** ** What no member function but insert does: throw, or resize *)

Lemma shape_eq_refl h : shape_eq h h.
Proof. by split. Qed.

Lemma shape_eq_trans h1 h2 h3 : shape_eq h1 h2 -> shape_eq h2 h3 -> shape_eq h1 h3.
Proof. unfold shape_eq. intros [? ?] [? ?]. split; congruence. Qed.

Lemma quiet_ret {A} (a : A) : quiet (ret a).
Proof. intros h. apply shape_eq_refl. Qed.

Lemma quiet_undefined {A} : quiet (@undefined A).
Proof. by intros h. Qed.

Lemma quiet_bind {A B} (m : M A) (k : A -> M B) :
  quiet m -> (forall a, quiet (k a)) -> quiet (bind m k).
Proof.
  intros Hm Hk h. unfold bind. specialize (Hm h).
  destruct (m h) as [a h1| | |]; try done.
  specialize (Hk a h1). destruct (k a h1); try done.
  by eapply shape_eq_trans.
Qed.

Lemma quiet_size : quiet size.
Proof. intros h. apply shape_eq_refl. Qed.

Lemma quiet_set_size (f : binary_heap -> Z) :
  quiet (fun h => Ok tt (with_size h (f h))).
Proof. intros h. by split. Qed.

Lemma quiet_heap_get i : quiet (heap_get i).
Proof.
  intros h. unfold heap_get.
  destruct ((0 <=? i) && (i <? Z.of_nat (length (_heap h)))); [|done].
  destruct (_heap h !! Z.to_nat i); [apply shape_eq_refl|done].
Qed.

Lemma quiet_heap_set i v : quiet (heap_set i v).
Proof.
  intros h. unfold heap_set.
  destruct ((0 <=? i) && (i <? Z.of_nat (length (_heap h)))); [|done].
  split; simpl; [apply length_insert|done].
Qed.

Lemma quiet_int_arith z : quiet (int_arith z).
Proof.
  unfold int_arith. destruct (in_int z); [apply quiet_ret|apply quiet_undefined].
Qed.

Create HintDb quiet.
#[local] Hint Resolve quiet_ret quiet_undefined quiet_size quiet_set_size
  quiet_heap_get quiet_heap_set quiet_int_arith quiet_bind : quiet.
#[local] Hint Extern 1 (quiet (if ?b then _ else _)) => destruct b : quiet.
#[local] Hint Extern 1 (quiet (fun h => Ok tt (with_size h _))) =>
  apply (quiet_set_size (fun h => _)) : quiet.

Lemma quiet_heap_swap i j : quiet (heap_swap i j).
Proof. unfold heap_swap. auto 10 with quiet. Qed.

Lemma quiet_parent i : quiet (parent i).
Proof. unfold parent. auto with quiet. Qed.

Lemma quiet_left_child i : quiet (left_child i).
Proof. unfold left_child. auto with quiet. Qed.

Lemma quiet_right_child i : quiet (right_child i).
Proof. unfold right_child. auto with quiet. Qed.

#[local] Hint Resolve quiet_heap_swap quiet_parent quiet_left_child
  quiet_right_child : quiet.

Lemma quiet_sift_up_loop fuel : forall i, quiet (sift_up_loop fuel i).
Proof.
  induction fuel as [|fuel IH]; intros i; [by intros h|].
  cbn [sift_up_loop]. auto 20 with quiet.
Qed.

Lemma quiet_sift_up i : quiet (sift_up i).
Proof. apply quiet_sift_up_loop. Qed.

Lemma quiet_sift_down_rec fuel : forall i, quiet (sift_down_rec fuel i).
Proof.
  induction fuel as [|fuel IH]; intros i; [by intros h|].
  cbn [sift_down_rec]. auto 30 with quiet.
Qed.

Lemma quiet_sift_down i : quiet (sift_down i).
Proof. intros h. apply quiet_sift_down_rec. Qed.

#[local] Hint Resolve quiet_sift_up quiet_sift_down : quiet.

Lemma quiet_top : quiet top.
Proof. apply quiet_heap_get. Qed.

Lemma quiet_extract_top : quiet extract_top.
Proof. unfold extract_top. auto 20 with quiet. Qed.

#[local] Hint Resolve quiet_extract_top : quiet.

Lemma quiet_remove i : quiet (remove i).
Proof. unfold remove. auto 10 with quiet. Qed.

Lemma quiet_change_priority i v : quiet (change_priority i v).
Proof. unfold change_priority. auto 10 with quiet. Qed.

Lemma quiet_find_loop fuel v : forall i, quiet (find_loop fuel v i).
Proof.
  induction fuel as [|fuel IH]; intros i; [by intros h|].
  cbn [find_loop]. auto 10 with quiet.
Qed.

Lemma quiet_find v : quiet (find v).
Proof. intros h. apply quiet_find_loop. Qed.

Lemma quiet_empty : quiet empty.
Proof. unfold empty. auto with quiet. Qed.

Lemma quiet_full : quiet full.
Proof.
  intros h. unfold full, bind, size.
  destruct (_size h =? _sizeMax h); apply shape_eq_refl.
Qed.

Lemma quiet_insert_body v : quiet (insert_body v).
Proof.
  unfold insert_body. auto 20 with quiet.
Qed.

Lemma insert_cases v h :
  (_size h = _sizeMax h /\ insert v h = Throw "binary_heap is full!" h) \/
  (_size h <> _sizeMax h /\ insert v h = insert_body v h).
Proof.
  destruct h as [sm n l]. cbn [_size _sizeMax].
  destruct (decide (n = sm)) as [He|Hne]; [left|right]; (split; [done|]).
  - unfold insert. by rewrite (bind_ok _ _ _ _ _ (full_true sm n l He)).
  - unfold insert. by rewrite (bind_ok _ _ _ _ _ (full_false sm n l Hne)).
Qed.

(** ** Sequences of calls *)

#[local] Hint Resolve quiet_top quiet_remove quiet_change_priority quiet_find
  quiet_empty quiet_full : quiet.

Lemma call_quiet o : (forall v, o <> OpInsert v) -> quiet (call o).
Proof.
  destruct o as [| |v|i|i p|v| | |]; intros Hne; simpl; auto with quiet.
  by destruct (Hne v).
Qed.

Lemma call_shape o h :
  match call o h with
  | Ok _ h' | Throw _ h' => shape_eq h h'
  | Undefined | OutOfFuel => True
  end.
Proof.
  destruct o as [| |v|i|i p|v| | |];
    try (match goal with
         | |- context [call ?o h] =>
             pose proof (call_quiet o ltac:(intros; discriminate) h) as Hq;
             by destruct (call o h)
         end).
  simpl. destruct (insert_cases v h) as [[_ ->]|[_ ->]].
  - apply shape_eq_refl.
  - pose proof (quiet_insert_body v h) as Hq.
    by destruct (insert_body v h).
Qed.

Lemma after_shape ops : forall h h',
  after ops h = Some h' -> shape_eq h h'.
Proof.
  induction ops as [|o ops IH]; intros h h' Hafter; simpl in Hafter.
  - injection Hafter as <-. apply shape_eq_refl.
  - pose proof (call_shape o h) as Hs.
    destruct (call o h) as [a h1|w h1| |]; try done;
      (eapply shape_eq_trans; [exact Hs|by apply IH]).
Qed.

(** C9: on a heap built with [binary_heap(capacity)], [capacity >= 1],
    whatever calls came before, [top()] with [count == 0] throws nothing
    and reads inside the vector: it returns the content of slot 0 and
    leaves the object as it is; on the heap just built this is [T()]. *)
Theorem top_on_empty_heap (capacity : Z) (ops : list op) (h : binary_heap)
  (Hcap : 1 <= capacity)
  (Hafter : after ops (binary_heap_sized capacity) = Some h)
  (Hempty : _size h = 0) :
  top h = Ok (sel (_heap h) 0) h /\
  0 < Z.of_nat (length (_heap h)) /\
  _heap h !! 0%nat = Some (sel (_heap h) 0) /\
  top (binary_heap_sized capacity) = Ok T_default (binary_heap_sized capacity).
Proof.
  apply after_shape in Hafter as [Hlen _]. simpl in Hlen.
  rewrite length_replicate in Hlen.
  assert (Hpos : 0 < Z.of_nat (length (_heap h))) by lia.
  split; [apply heap_get_ok; lia|]. split; [done|].
  split; [apply (lookup_sel _ 0); lia|].
  unfold top. rewrite heap_get_ok by (simpl; rewrite length_replicate; lia).
  f_equal. apply sel_lookup. simpl. apply lookup_replicate_2. lia.
Qed.

Lemma top_on_empty_heap_witness :
  let h := mk_heap 2 0 [3; 3] in
  top h = Ok (sel (_heap h) 0) h /\
  0 < Z.of_nat (length (_heap h)) /\
  _heap h !! 0%nat = Some (sel (_heap h) 0) /\
  top (binary_heap_sized 2) = Ok T_default (binary_heap_sized 2).
Proof.
  apply (top_on_empty_heap 2
           [OpInsert 4; OpInsert 3; OpExtractTop; OpExtractTop; OpTop]);
    [lia|reflexivity|reflexivity].
Defined.

(** C10: a call throws only if it is [insert] on a full heap, with the
    message of [insert]; [remove], [change_priority], [top] and
    [extract_top] throw for no index and no state (there is no bounds or
    emptiness check: a negative index is an unchecked vector access). *)
Theorem only_insert_throws (o : op) (h : binary_heap) :
  (forall what h',
     call o h = Throw what h' ->
     (exists value, o = OpInsert value) /\
     what = "binary_heap is full!" /\ _size h = _sizeMax h /\ h' = h) /\
  (forall index what h', remove index h <> Throw what h') /\
  (forall index priority what h',
     change_priority index priority h <> Throw what h') /\
  (forall what h', top h <> Throw what h') /\
  (forall what h', extract_top h <> Throw what h') /\
  remove (-1) h = Undefined /\
  (forall priority, change_priority (-1) priority h = Undefined).
Proof.
  assert (Hq : forall A (m : M A), quiet m ->
                 forall what h', m h <> Throw what h').
  { intros A m Hm what h' Hrun. specialize (Hm h). by rewrite Hrun in Hm. }
  split; [|repeat split; auto using quiet_remove, quiet_change_priority,
                           quiet_top, quiet_extract_top].
  intros what h' Hthrow.
  assert (Hins : exists value, o = OpInsert value).
  { destruct o as [| |v|i|i p|v| | |]; eauto;
      match type of Hthrow with
      | call ?o h = _ =>
          by destruct (Hq _ _ (call_quiet o ltac:(intros; discriminate))
                         what h')
      end. }
  destruct Hins as [value ->]. simpl in Hthrow.
  split; [by exists value|].
  destruct (insert_cases value h) as [[Hfull Hrun]|[_ Hrun]].
  - rewrite Hrun in Hthrow. injection Hthrow as <- <-. done.
  - rewrite Hrun in Hthrow.
    by destruct (Hq _ _ (quiet_insert_body value) what h').
Qed.

Lemma only_insert_throws_witness :
  (exists value, OpInsert 1 = OpInsert value) /\
  "binary_heap is full!" = "binary_heap is full!" /\
  _size (binary_heap_sized 0) = _sizeMax (binary_heap_sized 0) /\
  binary_heap_sized 0 = binary_heap_sized 0.
Proof.
  apply (proj1 (only_insert_throws (OpInsert 1) (binary_heap_sized 0))
           "binary_heap is full!" (binary_heap_sized 0)).
  reflexivity.
Defined.

(** ** find *)

Lemma find_loop_spec v sm n l fuel : forall i,
  (Z.to_nat (n - i) < fuel)%nat ->
  0 <= i <= n -> n <= Z.of_nat (length l) -> n <= index_limit ->
  (forall j, 0 <= j < i -> sel l j <> v) ->
  exists r,
    find_loop fuel v i (mk_heap sm n l) = Ok r (mk_heap sm n l) /\
    ((r = -1 /\ forall j, 0 <= j < n -> sel l j <> v) \/
     (0 <= r < n /\ sel l r = v /\ forall j, 0 <= j < r -> sel l j <> v)).
Proof.
  induction fuel as [|fuel IH]; intros i Hf Hi Hn Hlim Hpre; [lia|].
  pose proof Hlim as Hlim'. unfold index_limit in Hlim'. cbn [find_loop].
  rewrite bind_size. cbn [_size].
  destruct (Z.ltb_spec i n) as [Hlt|Hge].
  - rewrite (bind_ok _ _ _ _ _
               (heap_get_ok i (mk_heap sm n l) ltac:(simpl; lia))).
    cbn [_heap]. destruct (Z.eqb_spec (sel l i) v) as [Heq|Hne].
    + exists i. rewrite cast_int_small by (unfold INT_MAX; lia).
      split; [done|]. right. split; [lia|]. by split.
    + rewrite wrap_size_t_small by (unfold SIZE_MAX; lia).
      apply IH; [lia|lia|lia|done|].
      intros j Hj. destruct (decide (j = i)) as [->|Hji]; [done|].
      apply Hpre. lia.
  - exists (-1). split; [done|]. left. split; [done|].
    intros j Hj. apply Hpre. lia.
Qed.

(** ** The fuel of the wrappers is enough *)

Lemma bind_inv {A B} (m : M A) (k : A -> M B) h b h2 :
  bind m k h = Ok b h2 -> exists a h1, m h = Ok a h1 /\ k a h1 = Ok b h2.
Proof. unfold bind. destruct (m h) as [a h1| | |]; try done. eauto. Qed.

Lemma bind_fuel {A B} (m : M A) (k : A -> M B) h :
  m h <> OutOfFuel ->
  (forall a h1, m h = Ok a h1 -> k a h1 <> OutOfFuel) ->
  bind m k h <> OutOfFuel.
Proof. unfold bind. destruct (m h) as [a h1| | |]; try done. eauto. Qed.

Lemma heap_get_inv i h a h1 :
  heap_get i h = Ok a h1 -> h1 = h /\ 0 <= i < Z.of_nat (length (_heap h)).
Proof.
  unfold heap_get.
  destruct ((0 <=? i) && (i <? Z.of_nat (length (_heap h)))) eqn:E; [|done].
  destruct (_heap h !! Z.to_nat i); [|done].
  intros [= _ <-]. split; [done|lia].
Qed.

Lemma heap_get_fuel i h : heap_get i h <> OutOfFuel.
Proof.
  unfold heap_get.
  destruct ((0 <=? i) && (i <? Z.of_nat (length (_heap h)))); [|done].
  by destruct (_heap h !! Z.to_nat i).
Qed.

Lemma heap_set_inv i v h a h1 :
  heap_set i v h = Ok a h1 -> _size h1 = _size h /\ 0 <= i.
Proof.
  unfold heap_set.
  destruct ((0 <=? i) && (i <? Z.of_nat (length (_heap h)))) eqn:E; [|done].
  intros Heq. inversion Heq; subst. split; [done|lia].
Qed.

Lemma heap_set_fuel i v h : heap_set i v h <> OutOfFuel.
Proof.
  unfold heap_set.
  by destruct ((0 <=? i) && (i <? Z.of_nat (length (_heap h)))).
Qed.

Lemma int_arith_inv z h a h1 : int_arith z h = Ok a h1 -> a = z /\ h1 = h.
Proof. unfold int_arith. destruct (in_int z); [|done]. by intros [= <- <-]. Qed.

Lemma int_arith_fuel z h : int_arith z h <> OutOfFuel.
Proof. unfold int_arith. by destruct (in_int z). Qed.

Lemma parent_inv k h a h1 :
  parent k h = Ok a h1 -> a = Z.quot (k - 1) 2 /\ h1 = h.
Proof.
  unfold parent. intros (x & h2 & [-> ->]%int_arith_inv & Hr)%bind_inv.
  by injection Hr as <- <-.
Qed.

Lemma parent_fuel k h : parent k h <> OutOfFuel.
Proof. unfold parent. apply bind_fuel; [apply int_arith_fuel|done]. Qed.

Lemma left_child_inv k h a h1 :
  left_child k h = Ok a h1 -> a = 2 * k + 1 /\ h1 = h.
Proof.
  unfold left_child. intros (x & h2 & [-> ->]%int_arith_inv & Hr)%bind_inv.
  by apply int_arith_inv in Hr.
Qed.

Lemma right_child_inv k h a h1 :
  right_child k h = Ok a h1 -> a = 2 * k + 2 /\ h1 = h.
Proof.
  unfold right_child. intros (x & h2 & [-> ->]%int_arith_inv & Hr)%bind_inv.
  by apply int_arith_inv in Hr.
Qed.

Lemma left_child_fuel k h : left_child k h <> OutOfFuel.
Proof.
  unfold left_child. apply bind_fuel; [apply int_arith_fuel|].
  intros. apply int_arith_fuel.
Qed.

Lemma right_child_fuel k h : right_child k h <> OutOfFuel.
Proof.
  unfold right_child. apply bind_fuel; [apply int_arith_fuel|].
  intros. apply int_arith_fuel.
Qed.

Lemma heap_swap_inv i j h a h1 :
  heap_swap i j h = Ok a h1 -> _size h1 = _size h /\ 0 <= i /\ 0 <= j.
Proof.
  unfold heap_swap.
  intros (x & h2 & [-> Hi]%heap_get_inv & Hr)%bind_inv.
  apply bind_inv in Hr as (y & h3 & [-> Hj]%heap_get_inv & Hr).
  apply bind_inv in Hr as (u & h4 & [Hs _]%heap_set_inv & Hr).
  apply heap_set_inv in Hr as [Hs' _]. split; [congruence|lia].
Qed.

Lemma heap_swap_fuel i j h : heap_swap i j h <> OutOfFuel.
Proof.
  unfold heap_swap.
  repeat (apply bind_fuel; [first [apply heap_get_fuel|apply heap_set_fuel]|intros]).
  apply heap_set_fuel.
Qed.

Lemma sift_up_loop_fuel fuel : forall i h,
  (Z.to_nat i < fuel)%nat -> sift_up_loop fuel i h <> OutOfFuel.
Proof.
  induction fuel as [|fuel IH]; intros i h Hf; [lia|].
  cbn [sift_up_loop]. destruct (Z.gtb_spec i 0) as [Hpos|Hz]; [|done].
  apply bind_fuel; [apply heap_get_fuel|intros x h1 _].
  apply bind_fuel; [apply parent_fuel|intros p h2 _].
  apply bind_fuel; [apply heap_get_fuel|intros y h3 _].
  destruct (x >? y); [|done].
  apply bind_fuel; [apply parent_fuel|intros p1 h4 _].
  apply bind_fuel; [apply heap_swap_fuel|intros u h5 _].
  apply bind_fuel; [apply parent_fuel|intros p2 h6 [-> _]%parent_inv].
  apply IH. pose proof (quot_parent i Hpos). lia.
Qed.

Lemma sift_up_terminates i h : sift_up i h <> OutOfFuel.
Proof. apply sift_up_loop_fuel. lia. Qed.

(** the guarded comparison of [sift_down] *)
Lemma pick_inv (c m s : Z) h a h1 :
  (if c <=? s then
     x <~ heap_get c ;; y <~ heap_get m ;; ret (if x >? y then c else m)
   else ret m) h = Ok a h1 ->
  h1 = h /\ (c <= s -> 0 <= c) /\ (a = m \/ (a = c /\ c <= s)).
Proof.
  destruct (Z.leb_spec c s) as [Hle|Hgt].
  - intros (x & h2 & [-> Hc]%heap_get_inv & Hr)%bind_inv.
    apply bind_inv in Hr as (y & h3 & [-> Hm]%heap_get_inv & Hr).
    injection Hr as <- <-. split; [done|]. split; [lia|].
    destruct (x >? y); auto.
  - intros [= <- <-]. split; [done|]. split; [lia|auto].
Qed.

Lemma pick_fuel (c m s : Z) h :
  (if c <=? s then
     x <~ heap_get c ;; y <~ heap_get m ;; ret (if x >? y then c else m)
   else ret m) h <> OutOfFuel.
Proof.
  destruct (c <=? s); [|done].
  repeat (apply bind_fuel; [apply heap_get_fuel|intros]). done.
Qed.

Lemma sift_down_rec_fuel fuel : forall k h,
  (1 <= fuel)%nat ->
  (0 <= k -> (Z.to_nat (cast_int (_size h) - k) < fuel)%nat) ->
  sift_down_rec fuel k h <> OutOfFuel.
Proof.
  induction fuel as [|fuel IH]; intros k h H1 Hf; [lia|].
  cbn [sift_down_rec].
  apply bind_fuel; [apply left_child_fuel|intros cl h1 [-> ->]%left_child_inv].
  apply bind_fuel; [apply right_child_fuel|intros cr h2 [-> ->]%right_child_inv].
  rewrite bind_size.
  apply bind_fuel; [apply pick_fuel|intros m1 h3 (-> & Hl & Hm1)%pick_inv].
  rewrite bind_size.
  apply bind_fuel; [apply pick_fuel|intros m2 h4 (-> & Hr & Hm2)%pick_inv].
  destruct (Z.eqb_spec k m2) as [He|Hne]; [done|]. simpl.
  apply bind_fuel; [apply heap_swap_fuel|intros u h5 (Hs & Hk & Hm)%heap_swap_inv].
  apply IH; [|rewrite Hs]; lia.
Qed.

Lemma sift_down_terminates k h : sift_down k h <> OutOfFuel.
Proof. apply sift_down_rec_fuel; lia. Qed.

Lemma find_loop_fuel fuel v : forall i h,
  0 <= i -> _size h <= SIZE_MAX ->
  (Z.to_nat (_size h - i) < fuel)%nat ->
  find_loop fuel v i h <> OutOfFuel.
Proof.
  induction fuel as [|fuel IH]; intros i h Hi Hs Hf; [lia|].
  cbn [find_loop]. rewrite bind_size.
  destruct (Z.ltb_spec i (_size h)) as [Hlt|Hge]; [|done].
  apply bind_fuel; [apply heap_get_fuel|intros x h1 [-> _]%heap_get_inv].
  destruct (x =? v); [done|].
  rewrite wrap_size_t_small by lia. apply IH; lia.
Qed.

Lemma find_terminates v h : _size h <= SIZE_MAX -> find v h <> OutOfFuel.
Proof. intros Hs. apply find_loop_fuel; lia. Qed.

Lemma build_heap_loop_fuel fuel : forall i h,
  (Z.to_nat (i + 1) < fuel)%nat -> build_heap_loop fuel i h <> OutOfFuel.
Proof.
  induction fuel as [|fuel IH]; intros i h Hf; [lia|].
  cbn [build_heap_loop]. destruct (Z.geb_spec i 0) as [Hi|Hi]; [|done].
  apply bind_fuel; [apply sift_down_terminates|intros u h1 _].
  apply bind_fuel; [apply int_arith_fuel|intros j h2 [-> _]%int_arith_inv].
  apply IH. lia.
Qed.

Lemma build_heap_unfold (v : list Z) h0 :
  build_heap v h0 =
    let n := Z.of_nat (length v) in
    let i := Z.quot (cast_int n) 2 in
    build_heap_loop (S (Z.to_nat (i + 1))) i (mk_heap n n v).
Proof. reflexivity. Qed.

Lemma build_heap_terminates v : binary_heap_of_vector v <> OutOfFuel.
Proof.
  unfold binary_heap_of_vector. rewrite build_heap_unfold. cbv zeta.
  apply build_heap_loop_fuel. lia.
Qed.

Lemma extract_top_terminates h : extract_top h <> OutOfFuel.
Proof.
  unfold extract_top.
  apply bind_fuel; [apply heap_get_fuel|intros].
  rewrite bind_size.
  apply bind_fuel; [apply heap_get_fuel|intros].
  apply bind_fuel; [apply heap_set_fuel|intros].
  apply bind_fuel; [done|intros].
  apply bind_fuel; [apply sift_down_terminates|done].
Qed.

(** every public call returns, throws or is undefined: the fuel never
    runs out on an object whose count is a [size_t] *)
Lemma call_terminates o h : _size h <= SIZE_MAX -> call o h <> OutOfFuel.
Proof.
  intros Hs. destruct o as [| |v|i|i p|v| | |]; simpl.
  - apply bind_fuel; [apply heap_get_fuel|done].
  - apply bind_fuel; [apply extract_top_terminates|done].
  - destruct (insert_cases v h) as [[_ ->]|[_ ->]]; [done|].
    unfold insert_body.
    apply bind_fuel; [done|intros].
    rewrite bind_size.
    apply bind_fuel; [apply heap_set_fuel|intros].
    rewrite bind_size. apply sift_up_terminates.
  - unfold remove.
    apply bind_fuel; [apply heap_set_fuel|intros].
    apply bind_fuel; [apply sift_up_terminates|intros].
    apply bind_fuel; [apply extract_top_terminates|done].
  - unfold change_priority.
    apply bind_fuel; [apply heap_get_fuel|intros old h1 _].
    apply bind_fuel; [apply heap_set_fuel|intros].
    destruct (p >? old); [apply sift_up_terminates|apply sift_down_terminates].
  - apply bind_fuel; [by apply find_terminates|done].
  - by destruct (_size h =? 0).
  - unfold full, bind, size. by destruct (_size h =? _sizeMax h).
  - done.
Qed.

(** ** The guard [child <= size] of sift_down *)

Lemma heap_get_oob i h :
  Z.of_nat (length (_heap h)) <= i -> heap_get i h = Undefined.
Proof.
  intros Hi. unfold heap_get.
  by replace ((0 <=? i) && (i <? Z.of_nat (length (_heap h)))) with false by lia.
Qed.

Lemma bind_undefined {A B} (m : M A) (k : A -> M B) h :
  m h = Undefined -> bind m k h = Undefined.
Proof. unfold bind. by intros ->. Qed.

(** on a full heap, sifting down the parent of slot [count] reads past
    the end of the vector *)
Lemma sift_down_past_end k sm n l :
  0 <= k < n -> 2 * k + 1 = n \/ 2 * k + 2 = n ->
  n = Z.of_nat (length l) -> n <= index_limit ->
  sift_down k (mk_heap sm n l) = Undefined.
Proof.
  intros Hk Hch Hlen Hlim. unfold index_limit in Hlim.
  unfold sift_down. cbn [_size]. set (h := mk_heap sm n l).
  cbn [sift_down_rec].
  rewrite (bind_ok _ _ _ _ _
             (left_child_ok k h ltac:(lia) ltac:(unfold INT_MAX; lia))).
  rewrite (bind_ok _ _ _ _ _
             (right_child_ok k h ltac:(lia) ltac:(unfold INT_MAX; lia))).
  rewrite (bind_ok size _ h n h eq_refl).
  rewrite cast_int_small by (unfold INT_MAX; lia).
  destruct Hch as [Hl|Hr].
  - replace (2 * k + 1 <=? n) with true by lia.
    apply bind_undefined, bind_undefined, heap_get_oob. simpl. lia.
  - replace (2 * k + 1 <=? n) with true by lia.
    rewrite (bind_ok _ _ _ _ _
               (pick_ok (2 * k + 1) k h ltac:(simpl; lia) ltac:(simpl; lia))).
    rewrite (bind_ok size _ h n h eq_refl).
    rewrite cast_int_small by (unfold INT_MAX; lia).
    replace (2 * k + 2 <=? n) with true by lia.
    apply bind_undefined, bind_undefined, heap_get_oob. simpl. lia.
Qed.

(** an index whose children are both past slot [count] is left alone *)
Lemma sift_down_leaf k sm n l :
  0 <= k -> n < 2 * k + 1 -> 2 * k + 2 <= INT_MAX -> 0 <= n ->
  sift_down k (mk_heap sm n l) = Ok tt (mk_heap sm n l).
Proof.
  intros Hk Hleaf Hov Hn.
  unfold sift_down. cbn [_size]. set (h := mk_heap sm n l).
  cbn [sift_down_rec].
  rewrite (bind_ok _ _ _ _ _ (left_child_ok k h Hk Hov)).
  rewrite (bind_ok _ _ _ _ _ (right_child_ok k h Hk Hov)).
  rewrite (bind_ok size _ h n h eq_refl).
  rewrite cast_int_small by lia.
  replace (2 * k + 1 <=? n) with false by lia.
  rewrite (bind_ok (ret k) _ h k h eq_refl).
  rewrite (bind_ok size _ h n h eq_refl).
  rewrite cast_int_small by lia.
  replace (2 * k + 2 <=? n) with false by lia.
  rewrite (bind_ok (ret k) _ h k h eq_refl).
  by rewrite Z.eqb_refl.
Qed.

(** C7 (the code departs from it): [build_heap] calls [sift_down] for [i]
    from [count/2] down to 0, and for every non-empty vector one of these
    calls compares against [_heap[count]], one slot past the end of the
    vector the constructor copied: the constructor has undefined behaviour
    instead of yielding a heap. *)
Theorem build_heap_reads_past_vector (v : list Z)
  (Hne : v <> []) (Hlim : Z.of_nat (length v) <= index_limit) :
  binary_heap_of_vector v = Undefined.
Proof.
  pose proof Hlim as Hlim'. unfold index_limit in Hlim'.
  assert (Hpos : 0 < Z.of_nat (length v)) by (destruct v; simpl; [done|lia]).
  unfold binary_heap_of_vector. rewrite build_heap_unfold. cbv zeta.
  set (n := Z.of_nat (length v)) in *. set (h := mk_heap n n v).
  rewrite cast_int_small by (unfold INT_MAX; lia).
  rewrite Z.quot_div_nonneg by lia.
  pose proof (Z.div_mod n 2 ltac:(lia)) as Hdm.
  pose proof (Z.mod_pos_bound n 2 ltac:(lia)) as Hmod.
  set (i := n / 2) in *.
  replace (Z.to_nat (i + 1)) with (S (Z.to_nat i)) by lia.
  cbn [build_heap_loop].
  replace (i >=? 0) with true by lia.
  destruct (decide (n mod 2 = 1)) as [Hodd|Heven].
  - apply bind_undefined. apply sift_down_past_end; [lia|lia|done|done].
  - rewrite (bind_ok _ _ _ _ _
               (sift_down_leaf i n n v ltac:(lia) ltac:(lia)
                  ltac:(unfold INT_MAX; lia) ltac:(lia))).
    rewrite (bind_ok _ _ _ _ _
               (int_arith_ok (i - 1) h ltac:(unfold INT_MIN, INT_MAX; lia))).
    replace (i - 1 >=? 0) with true by lia.
    apply bind_undefined. apply sift_down_past_end; [lia|lia|done|done].
Qed.

Lemma build_heap_reads_past_vector_witness :
  binary_heap_of_vector [3; 1; 4; 1; 5] = Undefined.
Proof.
  apply (build_heap_reads_past_vector [3; 1; 4; 1; 5]);
    [discriminate|vm_compute; discriminate].
Defined.

(** C3 (the code departs from it): the guard of [sift_down] is
    [child <= size], so the element at [index] is compared with slot
    [count]. Two heaps with the same count and the same live range are
    sifted differently, and on a full heap the read is past the vector. *)
Theorem sift_down_compares_slot_count :
  sift_down 0 (mk_heap 2 1 [1; 5]) = Ok tt (mk_heap 2 1 [5; 1]) /\
  sift_down 0 (mk_heap 2 1 [1; 0]) = Ok tt (mk_heap 2 1 [1; 0]) /\
  live (mk_heap 2 1 [1; 5]) = live (mk_heap 2 1 [1; 0]) /\
  sift_down 0 (mk_heap 1 1 [1]) = Undefined.
Proof. repeat split; reflexivity. Qed.

(** C4 (the code departs from it): after insert 5, 3, 4 and one
    [extract_top] on [Heap(3)] the heap is [4, 3] with a dead copy of 4 in
    slot 2; [change_priority(0, 1)] sifts the 1 down into the dead slot
    and the live elements stay [4, 3] instead of becoming 1 and 3. With an
    equal priority the call is not a no-op either, and on a full heap it
    reads past the vector. *)
Theorem change_priority_swaps_with_dead_slot :
  let h := mk_heap 3 2 [4; 3; 4] in
  let h' := mk_heap 3 2 [4; 3; 1] in
  after [OpInsert 5; OpInsert 3; OpInsert 4; OpExtractTop]
        (binary_heap_sized 3) = Some h /\
  wf h = true /\ heap_ok h = true /\
  change_priority 0 1 h = Ok tt h' /\
  live h' = [4; 3] /\ ~ (live h' ≡ₚ [1; 3]) /\
  change_priority 1 1 (mk_heap 4 3 [1; 1; 1; 6])
    = Ok tt (mk_heap 4 3 [1; 6; 1; 1]) /\
  change_priority 1 0 (mk_heap 4 4 [5; 3; 4; 1]) = Undefined.
Proof.
  cbv zeta. repeat split; try reflexivity.
  intros Hp. assert (Hin : 1 ∈ live (mk_heap 3 2 [4; 3; 1])).
  { rewrite Hp. by left. }
  vm_compute in Hin.
  apply elem_of_cons in Hin as [Hin|Hin]; [done|].
  apply elem_of_cons in Hin as [Hin|Hin]; [done|].
  by apply elem_of_nil in Hin.
Qed.

(** C1 (the code departs from it): calls within capacity that leave the
    invariant broken. On [Heap(4)], after insert -1, -2, -3 the vector is
    [-1, -2, -3] with the initial 0 in slot 3; [change_priority(1, -4)]
    sifts down against slot 3 and brings the 0 to index 1, above the root's
    -1. The same happens with a stale value left by earlier extractions. *)
Theorem change_priority_breaks_invariant :
  let h := mk_heap 4 3 [-1; -2; -3; 0] in
  let h' := mk_heap 4 3 [-1; 0; -3; -4] in
  after [OpInsert (-1); OpInsert (-2); OpInsert (-3)]
        (binary_heap_sized 4) = Some h /\
  wf h = true /\ heap_ok h = true /\
  change_priority 1 (-4) h = Ok tt h' /\
  heap_ok h' = false /\
  after [OpInsert 9; OpInsert 8; OpInsert 7; OpInsert 6;
         OpExtractTop; OpExtractTop; OpExtractTop; OpExtractTop;
         OpInsert 1; OpInsert 1; OpInsert 1; OpChangePriority 1 0]
        (binary_heap_sized 4) = Some (mk_heap 4 3 [1; 6; 1; 0]) /\
  heap_ok (mk_heap 4 3 [1; 6; 1; 0]) = false.
Proof. cbv zeta. repeat split; reflexivity. Qed.

(** ** The count under the calls *)

Lemma sized_spec h :
  sized h = true <->
  Z.of_nat (length (_heap h)) = _sizeMax h /\
  0 <= _size h <= _sizeMax h /\ _sizeMax h <= SIZE_MAX.
Proof. unfold sized. lia. Qed.

Lemma sift_up_loop_size fuel : forall i h a h',
  sift_up_loop fuel i h = Ok a h' -> _size h' = _size h.
Proof.
  induction fuel as [|fuel IH]; intros i h a h' Hrun; [done|].
  cbn [sift_up_loop] in Hrun. destruct (i >? 0); [|by injection Hrun as _ <-].
  apply bind_inv in Hrun as (x & h1 & [-> _]%heap_get_inv & Hrun).
  apply bind_inv in Hrun as (p & h2 & [-> ->]%parent_inv & Hrun).
  apply bind_inv in Hrun as (y & h3 & [-> _]%heap_get_inv & Hrun).
  destruct (x >? y); [|by injection Hrun as _ <-].
  apply bind_inv in Hrun as (p1 & h4 & [-> ->]%parent_inv & Hrun).
  apply bind_inv in Hrun as (u & h5 & [Hs _]%heap_swap_inv & Hrun).
  apply bind_inv in Hrun as (p2 & h6 & [-> ->]%parent_inv & Hrun).
  apply IH in Hrun. congruence.
Qed.

Lemma sift_down_rec_size fuel : forall k h a h',
  sift_down_rec fuel k h = Ok a h' -> _size h' = _size h.
Proof.
  induction fuel as [|fuel IH]; intros k h a h' Hrun; [done|].
  cbn [sift_down_rec] in Hrun.
  apply bind_inv in Hrun as (cl & h1 & [-> ->]%left_child_inv & Hrun).
  apply bind_inv in Hrun as (cr & h2 & [-> ->]%right_child_inv & Hrun).
  rewrite bind_size in Hrun.
  apply bind_inv in Hrun as (m1 & h3 & (-> & _ & _)%pick_inv & Hrun).
  rewrite bind_size in Hrun.
  apply bind_inv in Hrun as (m2 & h4 & (-> & _ & _)%pick_inv & Hrun).
  destruct (negb (k =? m2)); [|by injection Hrun as _ <-].
  apply bind_inv in Hrun as (u & h5 & [Hs _]%heap_swap_inv & Hrun).
  apply IH in Hrun. congruence.
Qed.

Lemma find_loop_state fuel v : forall i h r h',
  find_loop fuel v i h = Ok r h' -> h' = h.
Proof.
  induction fuel as [|fuel IH]; intros i h r h' Hrun; [done|].
  cbn [find_loop] in Hrun. rewrite bind_size in Hrun.
  destruct (i <? _size h); [|by injection Hrun as _ <-].
  apply bind_inv in Hrun as (x & h1 & [-> _]%heap_get_inv & Hrun).
  destruct (x =? v); [by injection Hrun as _ <-|by apply IH in Hrun].
Qed.

(** a returning [extract_top] found a live element to move *)
Lemma extract_top_size h a h' :
  sized h = true -> extract_top h = Ok a h' ->
  1 <= _size h /\ _size h' = _size h - 1.
Proof.
  intros (Hlen & Hn & Hmax)%sized_spec Hrun. unfold extract_top in Hrun.
  apply bind_inv in Hrun as (t & h1 & [-> _]%heap_get_inv & Hrun).
  rewrite bind_size in Hrun.
  apply bind_inv in Hrun as (x & h2 & [-> Hlast]%heap_get_inv & Hrun).
  apply bind_inv in Hrun as (u & h3 & [Hs3 _]%heap_set_inv & Hrun).
  apply bind_inv in Hrun as (u' & h4 & Hdec & Hrun).
  injection Hdec as Hdec. subst h4.
  apply bind_inv in Hrun as (u'' & h5 & Hsd & Hrun).
  injection Hrun as _ <-.
  apply sift_down_rec_size in Hsd. cbn [_size with_size] in Hsd.
  assert (Hpos : 1 <= _size h).
  { destruct (decide (_size h = 0)) as [Hz|Hnz]; [|lia].
    rewrite Hz in Hlast. vm_compute wrap_size_t in Hlast.
    unfold SIZE_MAX in Hmax. lia. }
  split; [done|]. rewrite Hsd, Hs3.
  apply wrap_size_t_small. unfold SIZE_MAX in *. lia.
Qed.

Lemma insert_body_size v h a h' :
  insert_body v h = Ok a h' -> _size h' = wrap_size_t (_size h + 1).
Proof.
  unfold insert_body. intros Hrun.
  apply bind_inv in Hrun as (u & h1 & Hinc & Hrun).
  injection Hinc as Hinc. subst h1.
  rewrite bind_size in Hrun.
  apply bind_inv in Hrun as (u' & h2 & [Hs2 _]%heap_set_inv & Hrun).
  rewrite bind_size in Hrun.
  apply sift_up_loop_size in Hrun. rewrite Hrun, Hs2. done.
Qed.

Lemma call_size o h a h' :
  sized h = true -> call o h = Ok a h' ->
  _size h' = _size h + size_delta o.
Proof.
  intros Hs Hrun. pose proof Hs as (Hlen & Hn & Hmax)%sized_spec.
  destruct o as [| |v|i|i p|v| | |]; cbn [call size_delta] in *.
  - apply bind_inv in Hrun as (t & h1 & [-> _]%heap_get_inv & Hrun).
    injection Hrun as _ <-. lia.
  - apply bind_inv in Hrun as (t & h1 & Hex & Hrun).
    injection Hrun as _ <-.
    apply extract_top_size in Hex as [_ ->]; [lia|done].
  - destruct (insert_cases v h) as [[_ Hi]|[Hroom Hi]];
      rewrite Hi in Hrun; [done|].
    apply insert_body_size in Hrun. rewrite Hrun.
    apply wrap_size_t_small. unfold SIZE_MAX in *. lia.
  - unfold remove in Hrun.
    apply bind_inv in Hrun as (u & h1 & Hset & Hrun).
    apply bind_inv in Hrun as (u' & h2 & Hup & Hrun).
    apply bind_inv in Hrun as (t & h3 & Hex & Hrun).
    injection Hrun as _ <-.
    pose proof (quiet_heap_set i T_max h) as Hq1. rewrite Hset in Hq1.
    pose proof (quiet_sift_up i h1) as Hq2. rewrite Hup in Hq2.
    apply heap_set_inv in Hset as [Hs1 _].
    apply sift_up_loop_size in Hup.
    apply extract_top_size in Hex as [_ ->]; [lia|].
    destruct Hq1 as [? ?], Hq2 as [? ?]. apply sized_spec. lia.
  - unfold change_priority in Hrun.
    apply bind_inv in Hrun as (old & h1 & [-> _]%heap_get_inv & Hrun).
    apply bind_inv in Hrun as (u & h2 & [Hs2 _]%heap_set_inv & Hrun).
    destruct (p >? old).
    + apply sift_up_loop_size in Hrun. lia.
    + apply sift_down_rec_size in Hrun. lia.
  - apply bind_inv in Hrun as (r & h1 & ->%find_loop_state & Hrun).
    injection Hrun as _ <-. lia.
  - apply bind_inv in Hrun as (b & h1 & Hb & Hrun).
    unfold empty in Hb. rewrite bind_size in Hb.
    injection Hb as _ <-. injection Hrun as _ <-. lia.
  - apply bind_inv in Hrun as (b & h1 & Hb & Hrun).
    unfold full in Hb. rewrite bind_size in Hb.
    destruct (_size h =? _sizeMax h); injection Hb as _ <-;
      injection Hrun as _ <-; lia.
  - injection Hrun as _ <-. lia.
Qed.

Lemma call_throw_same o h what h' : call o h = Throw what h' -> h' = h.
Proof.
  intros Hrun. destruct o as [| |v|i|i p|v| | |];
    try (match type of Hrun with
         | call ?o h = _ =>
             pose proof (call_quiet o ltac:(intros; discriminate) h) as Hq;
             by rewrite Hrun in Hq
         end).
  simpl in Hrun. destruct (insert_cases v h) as [[_ Hi]|[_ Hi]];
    rewrite Hi in Hrun.
  - by injection Hrun as _ <-.
  - pose proof (quiet_insert_body v h) as Hq. by rewrite Hrun in Hq.
Qed.

Lemma call_sized o h a h' :
  sized h = true -> call o h = Ok a h' -> sized h' = true.
Proof.
  intros Hs Hrun. pose proof (call_size o h a h' Hs Hrun) as Hsz.
  pose proof (call_shape o h) as Hsh. rewrite Hrun in Hsh.
  destruct Hsh as [Hlen Hcap].
  apply sized_spec in Hs as (Hl & Hn & Hmax). apply sized_spec.
  split; [lia|]. split; [|lia].
  destruct o as [| |v|i|i p|v| | |]; cbn [size_delta] in Hsz; try lia.
  - apply bind_inv in Hrun as (t & h1 & Hex & _).
    apply extract_top_size in Hex; [lia|]. apply sized_spec. lia.
  - simpl in Hrun. destruct (insert_cases v h) as [[_ Hi]|[Hroom Hi]];
      rewrite Hi in Hrun; [done|lia].
  - unfold call, remove in Hrun.
    apply bind_inv in Hrun as (u & h1 & Hset & Hrun).
    apply bind_inv in Hrun as (u' & h2 & Hup & Hrun).
    apply bind_inv in Hrun as (t & h3 & Hex & _).
    pose proof (quiet_heap_set i T_max h) as Hq1. rewrite Hset in Hq1.
    pose proof (quiet_sift_up i h1) as Hq2. rewrite Hup in Hq2.
    apply heap_set_inv in Hset as [Hs1 _].
    apply sift_up_loop_size in Hup.
    apply extract_top_size in Hex; [lia|].
    destruct Hq1 as [? ?], Hq2 as [? ?]. apply sized_spec. lia.
Qed.

(** X14: size accounting. On an object with its count within the
    capacity, a call that returns changes the count by +1 ([insert]), by
    -1 ([extract_top], [remove]) or not at all, the count stays within
    the capacity, and a call that throws leaves the object as it was. *)
Theorem call_changes_count (o : op) (h : binary_heap)
  (Hs : sized h = true) :
  (forall a h', call o h = Ok a h' ->
     _size h' = _size h + size_delta o /\ sized h' = true /\
     _sizeMax h' = _sizeMax h) /\
  (forall what h', call o h = Throw what h' -> h' = h).
Proof.
  split.
  - intros a h' Hrun. split; [by eapply call_size|].
    split; [by eapply call_sized|].
    pose proof (call_shape o h) as Hsh. rewrite Hrun in Hsh. apply Hsh.
  - intros what h'. apply call_throw_same.
Qed.

Lemma call_changes_count_witness :
  _size (mk_heap 3 1 [7; 7; 0]) = _size (mk_heap 3 2 [7; 5; 0]) + -1 /\
  sized (mk_heap 3 1 [7; 7; 0]) = true /\
  _sizeMax (mk_heap 3 1 [7; 7; 0]) = _sizeMax (mk_heap 3 2 [7; 5; 0]).
Proof.
  apply (proj1 (call_changes_count (OpRemove 1) (mk_heap 3 2 [7; 5; 0])
                  eq_refl) tt (mk_heap 3 1 [7; 7; 0])).
  reflexivity.
Defined.

Lemma after_sized ops : forall h h',
  sized h = true -> after ops h = Some h' ->
  sized h' = true /\ _sizeMax h' = _sizeMax h /\
  _size h' = _size h + net_count ops h.
Proof.
  induction ops as [|o ops IH]; intros h h' Hs Hafter;
    cbn [after net_count] in *.
  - injection Hafter as <-. split; [done|]. split; [done|lia].
  - pose proof (call_shape o h) as Hsh.
    destruct (call o h) as [a h1|w h1| |] eqn:Hrun; try done.
    + destruct (IH h1 h' (call_sized _ _ _ _ Hs Hrun) Hafter)
        as (Hs' & Hcap & Hn).
      pose proof (call_size _ _ _ _ Hs Hrun).
      destruct Hsh as [_ Hsh]. split; [done|]. split; lia.
    + apply call_throw_same in Hrun as ->. by apply IH.
Qed.

(** X15: capacity enforcement. Whatever calls are made on a heap built
    with [binary_heap(capacity)], as long as they are defined, the capacity
    and the vector's length stay [capacity], the count stays in
    [[0, capacity]], and the count is the number of inserts that returned
    minus the number of [extract_top] and [remove] calls that returned. *)
Theorem count_within_capacity (capacity : Z) (ops : list op)
  (h : binary_heap)
  (Hcap : 0 <= capacity <= SIZE_MAX)
  (Hafter : after ops (binary_heap_sized capacity) = Some h) :
  _sizeMax h = capacity /\ Z.of_nat (length (_heap h)) = capacity /\
  0 <= _size h <= capacity /\
  _size h = net_count ops (binary_heap_sized capacity).
Proof.
  assert (Hs : sized (binary_heap_sized capacity) = true).
  { apply sized_spec. simpl. rewrite length_replicate. lia. }
  destruct (after_sized ops _ _ Hs Hafter) as (Hs' & Hmax & Hn).
  apply sized_spec in Hs' as (Hlen & Hrange & _).
  simpl in Hmax, Hn. repeat split; lia.
Qed.

Lemma count_within_capacity_witness :
  let h := mk_heap 2 1 [4; 4] in
  _sizeMax h = 2 /\ Z.of_nat (length (_heap h)) = 2 /\
  0 <= _size h <= 2 /\
  _size h = net_count [OpInsert 4; OpInsert 7; OpInsert 9; OpExtractTop]
                      (binary_heap_sized 2).
Proof.
  apply (count_within_capacity 2
           [OpInsert 4; OpInsert 7; OpInsert 9; OpExtractTop]);
    [vm_compute; split; discriminate|reflexivity].
Defined.

(** ** insert, top and extract_top on a heap of the data model *)

(** X1: on a heap of the data model that satisfies the invariant and is
    not full, [insert(value)] returns, the count grows by one, the live
    elements are the old ones and [value], and the invariant holds. *)
Theorem insert_adds_value (h : binary_heap) (value : Z)
  (Hwf : wf h = true) (Hheap : heap_ok h = true)
  (Hroom : _size h < _sizeMax h) :
  exists h',
    insert value h = Ok tt h' /\
    _size h' = _size h + 1 /\ _sizeMax h' = _sizeMax h /\
    length (_heap h') = length (_heap h) /\
    live h' ≡ₚ value :: live h /\ heap_ok h' = true.
Proof.
  destruct h as [sm n l]. apply wf_spec in Hwf as (Hlen & Hn & Hlim).
  unfold heap_ok in *. rewrite is_max_heap_spec in Hheap.
  cbn [_size _heap _sizeMax] in *.
  destruct (insert_spec value sm n l) as (l' & Hrun & Hlen' & Hheap' & Hperm);
    [lia|done|done|done|].
  exists (mk_heap sm (n + 1) l'). cbn [_size _heap _sizeMax].
  split; [done|]. split; [done|]. split; [done|]. split; [done|].
  split; [exact Hperm|]. by apply is_max_heap_spec.
Qed.

Lemma insert_adds_value_witness :
  exists h',
    let h := mk_heap 4 3 [9; 7; 8; 0] in
    insert 10 h = Ok tt h' /\
    _size h' = _size h + 1 /\ _sizeMax h' = _sizeMax h /\
    length (_heap h') = length (_heap h) /\
    live h' ≡ₚ 10 :: live h /\ heap_ok h' = true.
Proof.
  apply (insert_adds_value (mk_heap 4 3 [9; 7; 8; 0]) 10);
    [reflexivity|reflexivity|simpl; lia].
Defined.

(** X2: on a non-empty heap of the data model that satisfies the
    invariant, [top()] returns a live element that no live element
    exceeds, and leaves the object as it is. *)
Theorem top_is_maximum (h : binary_heap)
  (Hwf : wf h = true) (Hheap : heap_ok h = true) (Hne : 1 <= _size h) :
  exists m,
    top h = Ok m h /\ m ∈ live h /\ forall x, x ∈ live h -> x <= m.
Proof.
  destruct h as [sm n l]. apply wf_spec in Hwf as (Hlen & Hn & Hlim).
  unfold heap_ok in *. rewrite is_max_heap_spec in Hheap.
  cbn [_size _heap _sizeMax] in *. exists (sel l 0).
  split; [apply heap_get_ok; simpl; lia|]. unfold live. cbn [_size _heap].
  split.
  - apply elem_of_take_sel; [lia|]. exists 0. split; [lia|done].
  - intros x (i & Hi & <-)%elem_of_take_sel; [|lia]. by apply (root_max n).
Qed.

Lemma top_is_maximum_witness :
  exists m,
    let h := mk_heap 4 3 [9; 7; 8; 0] in
    top h = Ok m h /\ m ∈ live h /\ forall x, x ∈ live h -> x <= m.
Proof.
  apply (top_is_maximum (mk_heap 4 3 [9; 7; 8; 0]));
    [reflexivity|reflexivity|simpl; lia].
Defined.

(** X3: on a non-empty heap of the data model that satisfies the
    invariant, [extract_top()] returns what [top()] returns, a maximum of
    the live elements; afterwards the count is one less, the live elements
    are the old ones without one occurrence of that maximum, and the
    invariant holds. *)
Theorem extract_top_removes_maximum (h : binary_heap)
  (Hwf : wf h = true) (Hheap : heap_ok h = true) (Hne : 1 <= _size h) :
  exists m h',
    extract_top h = Ok m h' /\ top h = Ok m h /\
    (forall x, x ∈ live h -> x <= m) /\
    live h ≡ₚ m :: live h' /\
    _size h' = _size h - 1 /\ _sizeMax h' = _sizeMax h /\
    heap_ok h' = true /\ wf h' = true.
Proof.
  destruct h as [sm n l]. apply wf_spec in Hwf as (Hlen & Hn & Hlim).
  unfold heap_ok in *. rewrite is_max_heap_spec in Hheap.
  cbn [_size _heap _sizeMax] in *.
  destruct (extract_top_spec sm n l) as (l' & Hrun & Hlen' & Hheap' & Hperm);
    [lia|done|done|done|].
  exists (sel l 0), (mk_heap sm (n - 1) l'). cbn [_size _heap _sizeMax].
  split; [done|]. split; [apply heap_get_ok; simpl; lia|]. split.
  { unfold live. cbn [_size _heap].
    intros x (i & Hi & <-)%elem_of_take_sel; [|lia]. by apply (root_max n). }
  split; [exact Hperm|]. split; [done|]. split; [done|].
  split; [by apply is_max_heap_spec|].
  apply wf_spec. cbn [_size _heap _sizeMax]. lia.
Qed.

Lemma extract_top_removes_maximum_witness :
  exists m h',
    let h := mk_heap 4 3 [9; 7; 8; 0] in
    extract_top h = Ok m h' /\ top h = Ok m h /\
    (forall x, x ∈ live h -> x <= m) /\
    live h ≡ₚ m :: live h' /\
    _size h' = _size h - 1 /\ _sizeMax h' = _sizeMax h /\
    heap_ok h' = true /\ wf h' = true.
Proof.
  apply (extract_top_removes_maximum (mk_heap 4 3 [9; 7; 8; 0]));
    [reflexivity|reflexivity|simpl; lia].
Defined.

Lemma extract_top_empty h :
  sized h = true -> _size h = 0 -> extract_top h = Undefined.
Proof.
  intros Hs Hz. destruct (extract_top h) as [a h'|w h'| |] eqn:Hrun.
  - apply extract_top_size in Hrun as [Hpos _]; [lia|done].
  - pose proof (quiet_extract_top h) as Hq. by rewrite Hrun in Hq.
  - done.
  - by destruct (extract_top_terminates h).
Qed.

(** X4: there is no emptiness check. On an empty heap (count 0, within
    its capacity) [extract_top()] reads [_heap[size()-1]], that is slot
    2^64-1, and [remove(index)] ends in that [extract_top] for every
    index: both are undefined behaviour, neither an exception nor a
    normal return. *)
Theorem extract_top_on_empty_undefined (h : binary_heap)
  (Hs : sized h = true) (Hempty : _size h = 0) :
  extract_top h = Undefined /\ forall index, remove index h = Undefined.
Proof.
  split; [by apply extract_top_empty|]. intros index.
  unfold remove.
  destruct (heap_set index T_max h) as [u h1|w h1| |] eqn:Hset.
  - rewrite (bind_ok _ _ _ _ _ Hset).
    destruct (sift_up index h1) as [u' h2|w h2| |] eqn:Hup.
    + rewrite (bind_ok _ _ _ _ _ Hup).
      apply bind_undefined, extract_top_empty.
      * pose proof (quiet_heap_set index T_max h) as Hq1.
        rewrite Hset in Hq1.
        pose proof (quiet_sift_up index h1) as Hq2. rewrite Hup in Hq2.
        apply heap_set_inv in Hset as [Hs1 _].
        apply sift_up_loop_size in Hup.
        apply sized_spec in Hs as (Hl & Hn & Hmax).
        destruct Hq1 as [? ?], Hq2 as [? ?]. apply sized_spec. lia.
      * apply heap_set_inv in Hset as [Hs1 _].
        apply sift_up_loop_size in Hup. congruence.
    + pose proof (quiet_sift_up index h1) as Hq. by rewrite Hup in Hq.
    + by apply bind_undefined.
    + by destruct (sift_up_terminates index h1).
  - pose proof (quiet_heap_set index T_max h) as Hq. by rewrite Hset in Hq.
  - by apply bind_undefined.
  - by destruct (heap_set_fuel index T_max h).
Qed.

Lemma extract_top_on_empty_undefined_witness :
  extract_top (binary_heap_sized 3) = Undefined /\
  forall index, remove index (binary_heap_sized 3) = Undefined.
Proof.
  apply (extract_top_on_empty_undefined (binary_heap_sized 3));
    reflexivity.
Defined.

(** X5: after [insert(value)] on a heap of the data model that satisfies
    the invariant and is not full, [top()] returns [value] if the heap
    was empty and otherwise the larger of [value] and the old top. *)
Theorem top_after_insert (h : binary_heap) (value : Z)
  (Hwf : wf h = true) (Hheap : heap_ok h = true)
  (Hroom : _size h < _sizeMax h) :
  exists h',
    insert value h = Ok tt h' /\
    top h' = Ok (if _size h =? 0 then value
                 else Z.max value (sel (_heap h) 0)) h'.
Proof.
  destruct h as [sm n l]. apply wf_spec in Hwf as (Hlen & Hn & Hlim).
  unfold heap_ok in *. rewrite is_max_heap_spec in Hheap.
  cbn [_size _heap _sizeMax] in *.
  destruct (insert_spec value sm n l) as (l' & Hrun & Hlen' & Hheap' & Hperm);
    [lia|done|done|done|].
  exists (mk_heap sm (n + 1) l'). split; [done|].
  unfold top. rewrite heap_get_ok by (simpl; lia). cbn [_heap].
  f_equal.
  assert (Hin : sel l' 0 ∈ value :: take (Z.to_nat n) l).
  { rewrite <- Hperm. apply elem_of_take_sel; [lia|].
    exists 0. split; [lia|done]. }
  assert (Hv : value <= sel l' 0).
  { assert (Hvin : value ∈ take (Z.to_nat (n + 1)) l').
    { rewrite Hperm. by left. }
    apply elem_of_take_sel in Hvin as (i & Hi & <-); [|lia].
    by apply (root_max (n + 1)). }
  destruct (Z.eqb_spec n 0) as [->|Hnz].
  - simpl in Hin. apply elem_of_cons in Hin as [Hin|Hin]; [done|].
    by apply elem_of_nil in Hin.
  - assert (Hold : sel l 0 <= sel l' 0).
    { assert (Hoin : sel l 0 ∈ take (Z.to_nat (n + 1)) l').
      { rewrite Hperm. right. apply elem_of_take_sel; [lia|].
        exists 0. split; [lia|done]. }
      apply elem_of_take_sel in Hoin as (i & Hi & <-); [|lia].
      by apply (root_max (n + 1)). }
    apply elem_of_cons in Hin as [Hin|Hin]; [lia|].
    apply elem_of_take_sel in Hin as (i & Hi & Hsel); [|lia].
    pose proof (root_max n l Hheap i Hi). lia.
Qed.

Lemma top_after_insert_witness :
  exists h',
    let h := mk_heap 4 3 [9; 7; 8; 0] in
    insert 10 h = Ok tt h' /\
    top h' = Ok (if _size h =? 0 then 10 else Z.max 10 (sel (_heap h) 0)) h'.
Proof.
  apply (top_after_insert (mk_heap 4 3 [9; 7; 8; 0]) 10);
    [reflexivity|reflexivity|simpl; lia].
Defined.

(** ** change_priority, case by case *)

Lemma max_heap_lower n l k v :
  max_heap n l -> 0 <= k < n -> n <= Z.of_nat (length l) -> v <= sel l k ->
  down_except n (<[Z.to_nat k := v]> l) k.
Proof.
  unfold down_except, max_heap, child. intros H Hk Hn Hv. split.
  - intros i c Hi Hc Hch Hne.
    rewrite !sel_insert by lia.
    pose proof (H i c ltac:(lia) ltac:(lia) ltac:(lia)).
    repeat case_decide; subst; lia.
  - intros p c Hp Hpk Hkc Hc.
    rewrite !sel_insert by lia.
    pose proof (H p k ltac:(lia) ltac:(lia) ltac:(lia)).
    pose proof (H k c ltac:(lia) ltac:(lia) ltac:(lia)).
    repeat case_decide; subst; lia.
Qed.

Lemma change_priority_unfold index priority sm n l :
  0 <= index < Z.of_nat (length l) ->
  change_priority index priority (mk_heap sm n l) =
    (if priority >? sel l index then sift_up index else sift_down index)
      (mk_heap sm n (<[Z.to_nat index := priority]> l)).
Proof.
  intros Hi. unfold change_priority. set (h := mk_heap sm n l).
  rewrite (bind_ok _ _ _ _ _ (heap_get_ok index h ltac:(simpl; lia))).
  by rewrite (bind_ok _ _ _ _ _
                (heap_set_ok index priority h ltac:(simpl; lia))).
Qed.

(** X6: raising a priority works. On a heap of the data model that
    satisfies the invariant, [change_priority(index, priority)] with
    [0 <= index < count] and [priority] greater than the element at
    [index] replaces exactly that element (count and capacity unchanged)
    and the invariant holds afterwards. *)
Theorem change_priority_raise (h : binary_heap) (index priority : Z)
  (Hwf : wf h = true) (Hheap : heap_ok h = true)
  (Hindex : 0 <= index < _size h)
  (Hraise : sel (_heap h) index < priority) :
  exists h',
    change_priority index priority h = Ok tt h' /\
    _size h' = _size h /\ _sizeMax h' = _sizeMax h /\
    live h' ≡ₚ priority :: delete (Z.to_nat index) (live h) /\
    heap_ok h' = true /\ wf h' = true.
Proof.
  destruct h as [sm n l]. apply wf_spec in Hwf as (Hlen & Hn & Hlim).
  unfold heap_ok in *. rewrite is_max_heap_spec in Hheap.
  cbn [_size _heap _sizeMax] in *.
  rewrite change_priority_unfold by lia.
  replace (priority >? sel l index) with true by lia.
  set (l1 := <[Z.to_nat index := priority]> l).
  destruct (sift_up_loop_spec (S (Z.to_nat index)) index sm n l1)
    as (l' & Hrun & Hlen' & Hheap' & Hperm).
  { lia. } { lia. } { unfold l1. rewrite length_insert. lia. }
  { unfold index_limit, INT_MAX in *. lia. }
  { apply max_heap_raise; [done|lia|lia|lia]. }
  exists (mk_heap sm n l'). cbn [_size _heap _sizeMax].
  split; [exact Hrun|]. split; [done|]. split; [done|]. split; [|split].
  - unfold live. cbn [_size _heap]. rewrite Hperm. unfold l1.
    rewrite take_insert_lt by lia.
    apply insert_Permutation with (sel l index).
    rewrite lookup_take_lt by lia. apply lookup_sel. lia.
  - by apply is_max_heap_spec.
  - apply wf_spec. cbn [_size _heap _sizeMax].
    rewrite Hlen'. unfold l1. rewrite length_insert. lia.
Qed.

Lemma change_priority_raise_witness :
  exists h',
    let h := mk_heap 3 3 [3; 2; 1] in
    change_priority 2 10 h = Ok tt h' /\
    _size h' = _size h /\ _sizeMax h' = _sizeMax h /\
    live h' ≡ₚ 10 :: delete (Z.to_nat 2) (live h) /\
    heap_ok h' = true /\ wf h' = true.
Proof.
  apply (change_priority_raise (mk_heap 3 3 [3; 2; 1]) 2 10);
    [reflexivity|reflexivity|simpl; lia|vm_compute; reflexivity].
Defined.

(** X7: lowering a priority works when the slot past the live range is
    harmless. On a heap of the data model that satisfies the invariant
    and is not full, [change_priority(index, priority)] with
    [0 <= index < count], [priority] not greater than the element at
    [index] and [_heap[count] <= priority] replaces exactly that element
    and the invariant holds afterwards: [sift_down] still compares with
    slot [count], but never swaps with it. *)
Theorem change_priority_lower (h : binary_heap) (index priority : Z)
  (Hwf : wf h = true) (Hheap : heap_ok h = true)
  (Hindex : 0 <= index < _size h)
  (Hlower : priority <= sel (_heap h) index)
  (Hroom : _size h < _sizeMax h) (Hlim : _size h < index_limit)
  (Hdead : sel (_heap h) (_size h) <= priority) :
  exists h',
    change_priority index priority h = Ok tt h' /\
    _size h' = _size h /\ _sizeMax h' = _sizeMax h /\
    live h' ≡ₚ priority :: delete (Z.to_nat index) (live h) /\
    heap_ok h' = true /\ wf h' = true.
Proof.
  destruct h as [sm n l]. apply wf_spec in Hwf as (Hlen & Hn & _).
  unfold heap_ok in *. rewrite is_max_heap_spec in Hheap.
  cbn [_size _heap _sizeMax] in *.
  rewrite change_priority_unfold by lia.
  replace (priority >? sel l index) with false by lia.
  set (l1 := <[Z.to_nat index := priority]> l).
  assert (Hl1 : length l1 = length l) by apply length_insert.
  pose proof Hlim as Hlim'. unfold index_limit in Hlim'.
  destruct (sift_down_rec_spec (S (Z.to_nat (cast_int n))) index sm n l1)
    as (l' & Hrun & Hlen' & Hheap' & Hperm).
  { rewrite cast_int_small by (unfold INT_MAX; lia). lia. }
  { lia. } { lia. } { done. }
  { apply max_heap_lower; [done|lia|lia|lia]. }
  { unfold l1. rewrite !sel_insert by lia. repeat case_decide; lia. }
  exists (mk_heap sm n l'). cbn [_size _heap _sizeMax].
  split; [exact Hrun|]. split; [done|]. split; [done|]. split; [|split].
  - unfold live. cbn [_size _heap]. rewrite Hperm. unfold l1.
    rewrite take_insert_lt by lia.
    apply insert_Permutation with (sel l index).
    rewrite lookup_take_lt by lia. apply lookup_sel. lia.
  - by apply is_max_heap_spec.
  - apply wf_spec. cbn [_size _heap _sizeMax]. lia.
Qed.

Lemma change_priority_lower_witness :
  exists h',
    let h := mk_heap 4 3 [9; 7; 8; 0] in
    change_priority 0 1 h = Ok tt h' /\
    _size h' = _size h /\ _sizeMax h' = _sizeMax h /\
    live h' ≡ₚ 1 :: delete (Z.to_nat 0) (live h) /\
    heap_ok h' = true /\ wf h' = true.
Proof.
  apply (change_priority_lower (mk_heap 4 3 [9; 7; 8; 0]) 0 1);
    [reflexivity|reflexivity|simpl; lia|vm_compute; discriminate
    |simpl; lia|vm_compute; reflexivity|vm_compute; discriminate].
Defined.

(** X8: on a full heap, [change_priority(index, priority)] with
    [priority] not greater than the element at [index] is undefined
    behaviour whenever slot [count] would be a child of [index]: the
    [sift_down] it calls reads one slot past the end of the vector. *)
Theorem change_priority_lower_on_full_heap (h : binary_heap)
  (index priority : Z)
  (Hwf : wf h = true) (Hfull : _size h = _sizeMax h)
  (Hindex : 0 <= index < _size h)
  (Hchild : 2 * index + 1 = _size h \/ 2 * index + 2 = _size h)
  (Hlower : priority <= sel (_heap h) index) :
  change_priority index priority h = Undefined.
Proof.
  destruct h as [sm n l]. apply wf_spec in Hwf as (Hlen & Hn & Hlim).
  cbn [_size _heap _sizeMax] in *.
  rewrite change_priority_unfold by lia.
  replace (priority >? sel l index) with false by lia.
  apply sift_down_past_end; [lia|done| |done].
  rewrite length_insert. lia.
Qed.

Lemma change_priority_lower_on_full_heap_witness :
  change_priority 1 2 (mk_heap 3 3 [5; 3; 4]) = Undefined.
Proof.
  apply (change_priority_lower_on_full_heap (mk_heap 3 3 [5; 3; 4]) 1 2);
    [reflexivity|reflexivity|simpl; lia|simpl; lia|vm_compute; discriminate].
Defined.

(** ** find after insert *)

(** X9: insert then find. On a heap of the data model that satisfies the
    invariant and is not full, [find(value)] right after [insert(value)]
    returns a live index that holds [value], the smallest such index;
    it does not return -1. *)
Theorem find_after_insert (h : binary_heap) (value : Z)
  (Hwf : wf h = true) (Hheap : heap_ok h = true)
  (Hroom : _size h < _sizeMax h) (Hlim : _size h < index_limit) :
  exists r h',
    (insert value ;;; find value) h = Ok r h' /\
    0 <= r < _size h' /\ sel (_heap h') r = value /\
    (forall j, 0 <= j < r -> sel (_heap h') j <> value) /\
    _size h' = _size h + 1.
Proof.
  destruct h as [sm n l]. apply wf_spec in Hwf as (Hlen & Hn & _).
  unfold heap_ok in *. rewrite is_max_heap_spec in Hheap.
  cbn [_size _heap _sizeMax] in *.
  destruct (insert_spec value sm n l) as (l' & Hrun & Hlen' & Hheap' & Hperm);
    [lia|done|lia|done|].
  destruct (find_loop_spec value sm (n + 1) l' (S (Z.to_nat (n + 1))) 0)
    as (r & Hfind & Hr); [lia|lia|lia|lia|lia|].
  exists r, (mk_heap sm (n + 1) l'). cbn [_size _heap _sizeMax].
  split; [by rewrite (bind_ok _ _ _ _ _ Hrun)|].
  destruct Hr as [[_ Hnone]|(Hrange & Hsel & Hfirst)]; [|done].
  assert (Hin : value ∈ take (Z.to_nat (n + 1)) l').
  { rewrite Hperm. by left. }
  apply elem_of_take_sel in Hin as (i & Hi & Hv); [|lia].
  by destruct (Hnone i Hi).
Qed.

Lemma find_after_insert_witness :
  exists r h',
    let h := mk_heap 4 3 [9; 7; 8; 0] in
    (insert 8 ;;; find 8) h = Ok r h' /\
    0 <= r < _size h' /\ sel (_heap h') r = 8 /\
    (forall j, 0 <= j < r -> sel (_heap h') j <> 8) /\
    _size h' = _size h + 1.
Proof.
  apply (find_after_insert (mk_heap 4 3 [9; 7; 8; 0]) 8);
    [reflexivity|reflexivity|simpl; lia|vm_compute; reflexivity].
Defined.

(** ** remove when the sentinel is a stored value *)

Lemma ints_le h x : ints h = true -> x ∈ live h -> x <= T_max.
Proof.
  unfold ints. rewrite forallb_forall. intros H Hx%list_elem_of_In.
  specialize (H x Hx). unfold in_T, in_int, T_max in *. lia.
Qed.

(** X10: [remove] needs no reserved sentinel on [int]. On a heap of the
    data model that satisfies the invariant, with [0 <= index < count] and
    live elements that are [int]s, some of which may equal
    [numeric_limits<int>::max()], [remove(index)] returns, the count is one
    less, the live elements are the old ones without one occurrence of the
    element that was at [index], and the invariant holds. *)
Theorem remove_with_sentinel_stored (h : binary_heap) (index : Z)
  (Hwf : wf h = true) (Hheap : heap_ok h = true)
  (Hindex : 0 <= index < _size h) (Hints : ints h = true) :
  exists h',
    remove index h = Ok tt h' /\
    _size h' = _size h - 1 /\ _sizeMax h' = _sizeMax h /\
    live h ≡ₚ sel (_heap h) index :: live h' /\
    heap_ok h' = true /\ wf h' = true.
Proof.
  destruct h as [sm n l]. apply wf_spec in Hwf as (Hlen & Hn & Hlim).
  unfold heap_ok in *. rewrite is_max_heap_spec in Hheap.
  cbn [_size _heap _sizeMax] in *.
  assert (Hle : forall x, x ∈ take (Z.to_nat n) l -> x <= T_max).
  { intros x Hx. by apply (ints_le (mk_heap sm n l)). }
  set (l1 := <[Z.to_nat index := T_max]> l).
  assert (Hidx : take (Z.to_nat n) l !! Z.to_nat index = Some (sel l index)).
  { rewrite lookup_take_lt by lia. apply lookup_sel. lia. }
  assert (Hp1 : take (Z.to_nat n) l1
                ≡ₚ T_max :: delete (Z.to_nat index) (take (Z.to_nat n) l)).
  { unfold l1. rewrite take_insert_lt by lia.
    by apply insert_Permutation with (sel l index). }
  pose proof (delete_Permutation _ _ _ Hidx) as Hp0.
  destruct (sift_up_loop_spec (S (Z.to_nat index)) index sm n l1)
    as (l2 & Hrun2 & Hlen2 & Hheap2 & Hperm2).
  { lia. } { lia. } { unfold l1. rewrite length_insert. lia. }
  { unfold index_limit, INT_MAX in *. lia. }
  { apply max_heap_raise; [done|lia|lia|].
    apply Hle. apply elem_of_take_sel; [lia|]. by exists index. }
  assert (Hlen2' : length l2 = length l).
  { rewrite Hlen2. unfold l1. apply length_insert. }
  destruct (extract_top_spec sm n l2)
    as (l3 & Hrun3 & Hlen3 & Hheap3 & Hperm3); [lia|lia|done|done|].
  assert (Htop : sel l2 0 = T_max).
  { apply Z.le_antisymm.
    - assert (Hin : sel l2 0 ∈ take (Z.to_nat n) l2).
      { apply elem_of_take_sel; [lia|]. exists 0. split; [lia|done]. }
      rewrite Hperm2, Hp1, elem_of_cons in Hin.
      destruct Hin as [->|Hin]; [done|].
      apply Hle. rewrite Hp0, elem_of_cons. by right.
    - assert (Hin : T_max ∈ take (Z.to_nat n) l2).
      { rewrite Hperm2, Hp1, elem_of_cons. by left. }
      apply elem_of_take_sel in Hin as (i & Hi & <-); [|lia].
      by apply (root_max n). }
  rewrite Htop in *.
  exists (mk_heap sm (n - 1) l3). split.
  { unfold remove.
    rewrite (bind_ok _ _ _ _ _
               (heap_set_ok index T_max (mk_heap sm n l) ltac:(simpl; lia))).
    cbn [_heap]. fold l1.
    change (with_heap (mk_heap sm n l) l1) with (mk_heap sm n l1).
    rewrite (bind_ok (sift_up index) _ _ _ _ Hrun2).
    by rewrite (bind_ok _ _ _ _ _ Hrun3). }
  cbn [_size _heap _sizeMax]. split; [done|]. split; [done|].
  split; [|split].
  - unfold live. cbn [_size _heap]. rewrite Hp0. f_equiv.
    apply (inj (cons T_max)). by rewrite <- Hperm3, Hperm2, Hp1.
  - by apply is_max_heap_spec.
  - apply wf_spec. cbn [_size _heap _sizeMax]. lia.
Qed.

Lemma remove_with_sentinel_stored_witness :
  exists h',
    let h := mk_heap 4 4 [2147483647; 7; 2147483647; 3] in
    remove 1 h = Ok tt h' /\
    _size h' = _size h - 1 /\ _sizeMax h' = _sizeMax h /\
    live h ≡ₚ sel (_heap h) 1 :: live h' /\
    heap_ok h' = true /\ wf h' = true.
Proof.
  apply (remove_with_sentinel_stored
           (mk_heap 4 4 [2147483647; 7; 2147483647; 3]) 1);
    [reflexivity|reflexivity|simpl; lia|reflexivity].
Defined.

(** ** Index arithmetic *)

(** X11: [parent] undoes [left_child] and [right_child] as long as the
    child indices fit an [int], the root is its own parent (C++ division
    truncates -1/2 to 0), and the parent of an index above 0 is a smaller
    index of which it is the left or the right child. *)
Theorem parent_of_child (index : Z) (h : binary_heap)
  (Hindex : 0 <= index) (Hfit : 2 * index + 2 <= INT_MAX) :
  (c <~ left_child index ;; parent c) h = Ok index h /\
  (c <~ right_child index ;; parent c) h = Ok index h /\
  parent 0 h = Ok 0 h /\
  (0 < index ->
   exists p, parent index h = Ok p h /\ 0 <= p < index /\
             (index = 2 * p + 1 \/ index = 2 * p + 2)).
Proof.
  split; [|split; [|split]].
  - rewrite (bind_ok _ _ _ _ _ (left_child_ok index h Hindex Hfit)).
    rewrite parent_ok by (unfold INT_MIN; lia). f_equal.
    rewrite Z.quot_div_nonneg by lia.
    replace (2 * index + 1 - 1) with (index * 2) by lia.
    apply Z.div_mul. lia.
  - rewrite (bind_ok _ _ _ _ _ (right_child_ok index h Hindex Hfit)).
    rewrite parent_ok by (unfold INT_MIN; lia). f_equal.
    rewrite Z.quot_div_nonneg by lia.
    replace (2 * index + 2 - 1) with (1 + index * 2) by lia.
    rewrite Z.div_add by lia. reflexivity.
  - reflexivity.
  - intros Hpos. exists (Z.quot (index - 1) 2).
    split; [apply parent_ok; unfold INT_MIN; lia|].
    destruct (quot_parent index Hpos) as [Hp Hc]. split; [done|exact Hc].
Qed.

Lemma parent_of_child_witness :
  let h := binary_heap_sized 0 in
  (c <~ left_child 5 ;; parent c) h = Ok 5 h /\
  (c <~ right_child 5 ;; parent c) h = Ok 5 h /\
  parent 0 h = Ok 0 h /\
  (0 < 5 ->
   exists p, parent 5 h = Ok p h /\ 0 <= p < 5 /\
             (5 = 2 * p + 1 \/ 5 = 2 * p + 2)).
Proof.
  apply (parent_of_child 5 (binary_heap_sized 0));
    [lia|vm_compute; discriminate].
Defined.

(** ** Sequences of inserts and extractions *)

Lemma call_index_free o h a h' :
  index_free o = true ->
  wf h = true -> heap_ok h = true -> _sizeMax h <= index_limit ->
  call o h = Ok a h' ->
  wf h' = true /\ heap_ok h' = true /\ _sizeMax h' = _sizeMax h.
Proof.
  intros Hfree Hwf Hheap Hcap Hrun.
  assert (Hs : sized h = true).
  { apply wf_spec in Hwf as (Hlen & Hn & Hlim). apply sized_spec.
    unfold index_limit, SIZE_MAX in *. lia. }
  destruct o as [| |v|i|i p|v| | |]; try discriminate; cbn [call] in Hrun.
  - apply bind_inv in Hrun as (t & h1 & [-> _]%heap_get_inv & Hrun).
    by injection Hrun as _ <-.
  - apply bind_inv in Hrun as (t & h1 & Hex & Hrun). injection Hrun as _ <-.
    pose proof (extract_top_size _ _ _ Hs Hex) as [Hpos _].
    destruct h as [sm n l]. apply wf_spec in Hwf as (Hlen & Hn & Hlim).
    unfold heap_ok in *. rewrite is_max_heap_spec in Hheap.
    cbn [_size _heap _sizeMax] in *.
    destruct (extract_top_spec sm n l)
      as (l' & Hrun' & Hlen' & Hheap' & _); [lia|done|done|done|].
    rewrite Hrun' in Hex. injection Hex as _ <-.
    cbn [_size _heap _sizeMax]. split; [|split; [|done]].
    + apply wf_spec. cbn [_size _heap _sizeMax]. lia.
    + by apply is_max_heap_spec.
  - destruct (insert_cases v h) as [[_ Hi]|[Hroom Hi]];
      [by rewrite Hi in Hrun|].
    destruct h as [sm n l]. apply wf_spec in Hwf as (Hlen & Hn & Hlim).
    unfold heap_ok in *. rewrite is_max_heap_spec in Hheap.
    cbn [_size _heap _sizeMax] in *.
    destruct (insert_spec v sm n l)
      as (l' & Hrun' & Hlen' & Hheap' & _); [lia|done|done|done|].
    rewrite Hrun' in Hrun. injection Hrun as _ <-.
    cbn [_size _heap _sizeMax]. split; [|split; [|done]].
    + apply wf_spec. cbn [_size _heap _sizeMax]. lia.
    + by apply is_max_heap_spec.
  - apply bind_inv in Hrun as (r & h1 & ->%find_loop_state & Hrun).
    by injection Hrun as _ <-.
  - apply bind_inv in Hrun as (b & h1 & Hb & Hrun).
    unfold empty in Hb. rewrite bind_size in Hb.
    injection Hb as _ <-. by injection Hrun as _ <-.
  - apply bind_inv in Hrun as (b & h1 & Hb & Hrun).
    unfold full in Hb. rewrite bind_size in Hb.
    destruct (_size h =? _sizeMax h); injection Hb as _ <-;
      by injection Hrun as _ <-.
  - by injection Hrun as _ <-.
Qed.

Lemma after_index_free ops : forall h h',
  forallb index_free ops = true ->
  wf h = true -> heap_ok h = true -> _sizeMax h <= index_limit ->
  after ops h = Some h' ->
  wf h' = true /\ heap_ok h' = true.
Proof.
  induction ops as [|o ops IH]; intros h h' Hfree Hwf Hheap Hcap Hafter;
    cbn [after forallb] in *.
  - by injection Hafter as <-.
  - apply andb_prop in Hfree as [Ho Hrest].
    destruct (call o h) as [a h1|w h1| |] eqn:Hrun; try done.
    + destruct (call_index_free _ _ _ _ Ho Hwf Hheap Hcap Hrun)
        as (Hwf1 & Hheap1 & Hcap1).
      apply (IH h1); try done. lia.
    + apply call_throw_same in Hrun as ->. by apply (IH h).
Qed.

(** X12: the invariant under inserts and extractions. On a heap built
    with [binary_heap(capacity)], after any defined sequence of calls
    other than [remove] and [change_priority] (inserts, also refused ones,
    extractions, [top], [find], [empty], [full], [size], in any order),
    the max-heap invariant holds over the live range and the object is in
    the data model. *)
Theorem inserts_and_extractions_keep_invariant
  (capacity : Z) (ops : list op) (h : binary_heap)
  (Hcap : 0 <= capacity <= index_limit)
  (Hfree : forallb index_free ops = true)
  (Hafter : after ops (binary_heap_sized capacity) = Some h) :
  heap_ok h = true /\ wf h = true.
Proof.
  assert (Hwf0 : wf (binary_heap_sized capacity) = true).
  { apply wf_spec. simpl. rewrite length_replicate. lia. }
  assert (Hheap0 : heap_ok (binary_heap_sized capacity) = true).
  { apply is_max_heap_spec. intros i c Hi Hc Hch. simpl in Hc.
    unfold child in Hch. lia. }
  assert (Hcap0 : _sizeMax (binary_heap_sized capacity) <= index_limit)
    by (simpl; lia).
  destruct (after_index_free ops _ h Hfree Hwf0 Hheap0 Hcap0 Hafter)
    as [Hwf Hheap].
  by split.
Qed.

Lemma inserts_and_extractions_keep_invariant_witness :
  let h := mk_heap 3 2 [6; 2; 6] in
  heap_ok h = true /\ wf h = true.
Proof.
  apply (inserts_and_extractions_keep_invariant 3
           [OpInsert 2; OpInsert 9; OpInsert 6; OpInsert 1; OpTop;
            OpExtractTop; OpFind 2]);
    [vm_compute; split; discriminate|reflexivity|reflexivity].
Defined.

(** ** Calls that stay inside the vector, whatever the order of the elements *)

Lemma sift_up_loop_safe fuel : forall k sm n l,
  (Z.to_nat k < fuel)%nat -> k < Z.of_nat (length l) -> k <= INT_MAX ->
  exists l',
    sift_up_loop fuel k (mk_heap sm n l) = Ok tt (mk_heap sm n l') /\
    length l' = length l.
Proof.
  induction fuel as [|fuel IH]; intros k sm n l Hf Hk Hmax; [lia|].
  cbn [sift_up_loop]. destruct (Z.gtb_spec k 0) as [Hpos|Hz]; [|by exists l].
  destruct (quot_parent k Hpos) as [Hp Hch].
  set (p := Z.quot (k - 1) 2) in *. set (h := mk_heap sm n l).
  rewrite (bind_ok _ _ _ _ _ (heap_get_ok k h ltac:(simpl; lia))).
  rewrite (bind_ok _ _ _ _ _ (parent_ok k h ltac:(unfold INT_MIN; lia))).
  fold p.
  rewrite (bind_ok _ _ _ _ _ (heap_get_ok p h ltac:(simpl; lia))).
  cbn [_heap h]. destruct (sel l k >? sel l p); [|by exists l].
  rewrite (bind_ok _ _ _ _ _ (parent_ok k h ltac:(unfold INT_MIN; lia))).
  fold p.
  rewrite (bind_ok _ _ _ _ _
             (heap_swap_ok p k h ltac:(simpl; lia) ltac:(simpl; lia))).
  rewrite (bind_ok _ _ _ _ _ (parent_ok k _ ltac:(unfold INT_MIN; lia))).
  fold p. cbn [with_heap _sizeMax _size _heap h].
  destruct (IH p sm n (swapZ l p k)) as (l' & Hrun & Hlen);
    [lia|rewrite length_swapZ; lia|lia|].
  exists l'. split; [done|]. by rewrite Hlen, length_swapZ.
Qed.

Lemma sift_down_rec_safe fuel : forall k sm n l,
  (Z.to_nat (n - k) < fuel)%nat ->
  0 <= k <= n -> n < Z.of_nat (length l) -> n + 1 < index_limit ->
  exists l',
    sift_down_rec fuel k (mk_heap sm n l) = Ok tt (mk_heap sm n l') /\
    length l' = length l.
Proof.
  induction fuel as [|fuel IH]; intros k sm n l Hf Hk Hn Hlim; [lia|].
  pose proof Hlim as Hlim'. unfold index_limit in Hlim'.
  rewrite sift_down_rec_step by (unfold INT_MAX; lia). cbv zeta.
  destruct (max_index_range n l k ltac:(lia)) as [Hm|[Hch Hm]].
  - rewrite Hm, Z.eqb_refl. simpl. by exists l.
  - set (m := max_index n l k) in *.
    destruct (Z.eqb_spec k m) as [He|Hne]; [by exists l|]. simpl.
    destruct (IH m sm n (swapZ l k m)) as (l' & Hrun & Hlen).
    + unfold child in Hch. lia.
    + unfold child in Hch. lia.
    + rewrite length_swapZ. lia.
    + done.
    + exists l'. split; [done|]. by rewrite Hlen, length_swapZ.
Qed.

Lemma extract_top_safe sm n l :
  1 <= n <= Z.of_nat (length l) -> n < index_limit ->
  exists l',
    extract_top (mk_heap sm n l) = Ok (sel l 0) (mk_heap sm (n - 1) l') /\
    length l' = length l.
Proof.
  intros Hn Hlim. pose proof Hlim as Hlim'. unfold index_limit in Hlim'.
  unfold extract_top. set (h := mk_heap sm n l).
  rewrite (bind_ok _ _ _ _ _ (heap_get_ok 0 h ltac:(simpl; lia))).
  rewrite bind_size. cbn [_size h].
  rewrite wrap_size_t_small by (unfold SIZE_MAX; lia).
  rewrite (bind_ok _ _ _ _ _ (heap_get_ok (n - 1) h ltac:(simpl; lia))).
  rewrite (bind_ok _ _ _ _ _ (heap_set_ok 0 _ h ltac:(simpl; lia))).
  cbn [_heap h]. set (l1 := <[Z.to_nat 0 := sel l (n - 1)]> l).
  erewrite (bind_ok _ _ _ tt (mk_heap sm (n - 1) l1)).
  2:{ unfold with_size, with_heap. simpl. f_equal. f_equal.
      apply wrap_size_t_small. unfold SIZE_MAX. lia. }
  assert (Hl1 : length l1 = length l) by apply length_insert.
  destruct (sift_down_rec_safe (S (Z.to_nat (cast_int (n - 1)))) 0 sm
              (n - 1) l1) as (l' & Hrun & Hlen).
  { rewrite cast_int_small by (unfold INT_MAX; lia). lia. }
  { lia. } { lia. } { lia. }
  exists l'.
  assert (Hsd : sift_down 0 (mk_heap sm (n - 1) l1)
                = Ok tt (mk_heap sm (n - 1) l')) by exact Hrun.
  rewrite (bind_ok _ _ _ _ _ Hsd). split; [done|congruence].
Qed.

(** X13: memory safety under the caller's checks. On a heap of the data
    model, whatever the order of its elements (the invariant is not
    assumed), a call returns or throws, it has no undefined behaviour,
    when [top]/[extract_top] are called on a non-empty heap, [remove] and
    [change_priority] with a live index, and [change_priority] either
    raises the priority or is made on a heap that is not full. *)
Theorem guarded_calls_are_defined (o : op) (h : binary_heap)
  (Hwf : wf h = true) (Hlim : _size h + 1 < index_limit)
  (Hguard : guarded o h = true) :
  (exists a h', call o h = Ok a h') \/
  (exists what, call o h = Throw what h).
Proof.
  destruct h as [sm n l]. apply wf_spec in Hwf as (Hlen & Hn & _).
  pose proof Hlim as Hlim'. unfold index_limit in Hlim'.
  cbn [_size _heap _sizeMax] in *.
  destruct o as [| |v|i|i p|v| | |]; cbn [call guarded _size _heap _sizeMax] in *.
  - left. exists tt, (mk_heap sm n l). unfold top.
    by rewrite (bind_ok _ _ _ _ _
                  (heap_get_ok 0 (mk_heap sm n l) ltac:(simpl; lia))).
  - left. destruct (extract_top_safe sm n l) as (l' & Hrun & _);
      [lia|lia|].
    exists tt, (mk_heap sm (n - 1) l'). by rewrite (bind_ok _ _ _ _ _ Hrun).
  - destruct (insert_cases v (mk_heap sm n l)) as [[_ Hi]|[Hroom Hi]];
      rewrite Hi; [right; eauto|left].
    cbn [_size _sizeMax] in Hroom. unfold insert_body.
    erewrite (bind_ok _ _ _ tt (mk_heap sm (n + 1) l)).
    2:{ unfold with_size. simpl. f_equal. f_equal.
        apply wrap_size_t_small. unfold SIZE_MAX. lia. }
    rewrite bind_size. cbn [_size].
    replace (n + 1 - 1) with n by lia.
    rewrite wrap_size_t_small by (unfold SIZE_MAX; lia).
    rewrite (bind_ok _ _ _ _ _
               (heap_set_ok n v (mk_heap sm (n + 1) l) ltac:(simpl; lia))).
    unfold with_heap. cbn [_size _heap _sizeMax].
    rewrite bind_size. cbn [_size].
    replace (n + 1 - 1) with n by lia.
    rewrite wrap_size_t_small by (unfold SIZE_MAX; lia).
    rewrite cast_int_small by (unfold INT_MAX; lia).
    destruct (sift_up_loop_safe (S (Z.to_nat n)) n sm (n + 1)
                (<[Z.to_nat n := v]> l)) as (l' & Hrun & _);
      [lia|rewrite length_insert; lia|unfold INT_MAX; lia|].
    by exists tt, (mk_heap sm (n + 1) l').
  - left. unfold remove.
    rewrite (bind_ok _ _ _ _ _
               (heap_set_ok i T_max (mk_heap sm n l) ltac:(simpl; lia))).
    unfold with_heap. cbn [_size _heap _sizeMax].
    destruct (sift_up_loop_safe (S (Z.to_nat i)) i sm n
                (<[Z.to_nat i := T_max]> l)) as (l1 & Hrun1 & Hlen1);
      [lia|rewrite length_insert; lia|unfold INT_MAX; lia|].
    rewrite (bind_ok (sift_up i) _ _ _ _ Hrun1).
    rewrite length_insert in Hlen1.
    destruct (extract_top_safe sm n l1) as (l2 & Hrun2 & _); [lia|lia|].
    rewrite (bind_ok _ _ _ _ _ Hrun2).
    by exists tt, (mk_heap sm (n - 1) l2).
  - left. rewrite change_priority_unfold by lia.
    destruct (Z.gtb_spec p (sel l i)) as [Hgt|Hle].
    + destruct (sift_up_loop_safe (S (Z.to_nat i)) i sm n
                  (<[Z.to_nat i := p]> l)) as (l1 & Hrun1 & _);
        [lia|rewrite length_insert; lia|unfold INT_MAX; lia|].
      by exists tt, (mk_heap sm n l1).
    + destruct (sift_down_rec_safe (S (Z.to_nat (cast_int n))) i sm n
                  (<[Z.to_nat i := p]> l)) as (l1 & Hrun1 & _).
      { rewrite cast_int_small by (unfold INT_MAX; lia). lia. }
      { lia. } { rewrite length_insert. lia. } { done. }
      by exists tt, (mk_heap sm n l1).
  - left.
    destruct (find_loop_spec v sm n l (S (Z.to_nat n)) 0)
      as (r & Hrun & _); [lia|lia|lia|unfold index_limit; lia|lia|].
    assert (Hf : find v (mk_heap sm n l) = Ok r (mk_heap sm n l))
      by exact Hrun.
    exists tt, (mk_heap sm n l). by rewrite (bind_ok _ _ _ _ _ Hf).
  - left. by exists tt, (mk_heap sm n l).
  - left. exists tt, (mk_heap sm n l).
    unfold full, bind, size. cbn [_size _sizeMax].
    by destruct (n =? sm).
  - left. by exists tt, (mk_heap sm n l).
Qed.

Lemma guarded_calls_are_defined_witness :
  (exists a h',
     call (OpChangePriority 1 0) (mk_heap 4 3 [1; 6; 1; 0]) = Ok a h') \/
  (exists what,
     call (OpChangePriority 1 0) (mk_heap 4 3 [1; 6; 1; 0])
       = Throw what (mk_heap 4 3 [1; 6; 1; 0])).
Proof.
  apply (guarded_calls_are_defined (OpChangePriority 1 0)
           (mk_heap 4 3 [1; 6; 1; 0]));
    [reflexivity|vm_compute; reflexivity|reflexivity].
Defined.

(** ** find on every heap of the data model *)

Lemma find_loop_narrow v sm n l fuel : forall i,
  (Z.to_nat (n - i) < fuel)%nat ->
  0 <= i <= n -> n <= Z.of_nat (length l) -> n <= SIZE_MAX ->
  (forall j, 0 <= j < i -> sel l j <> v) ->
  exists result,
    find_loop fuel v i (mk_heap sm n l) = Ok result (mk_heap sm n l) /\
    ((result = -1 /\ forall j, 0 <= j < n -> sel l j <> v) \/
     (exists r, 0 <= r < n /\ sel l r = v /\
                (forall j, 0 <= j < r -> sel l j <> v) /\
                result = cast_int r)).
Proof.
  induction fuel as [|fuel IH]; intros i Hf Hi Hn Hmax Hpre; [lia|].
  cbn [find_loop]. rewrite bind_size. cbn [_size].
  destruct (Z.ltb_spec i n) as [Hlt|Hge].
  - rewrite (bind_ok _ _ _ _ _
               (heap_get_ok i (mk_heap sm n l) ltac:(cbn [_heap]; lia))).
    cbn [_heap]. destruct (Z.eqb_spec (sel l i) v) as [Heq|Hne].
    + exists (cast_int i). split; [reflexivity|]. right. exists i.
      split; [lia|]. split; [exact Heq|]. split; [exact Hpre|reflexivity].
    + rewrite wrap_size_t_small by lia.
      apply IH; [lia|lia|exact Hn|exact Hmax|].
      intros j Hj. destruct (decide (j = i)) as [->|Hji]; [exact Hne|].
      apply Hpre. lia.
  - exists (-1). split; [reflexivity|]. left. split; [reflexivity|].
    intros j Hj. apply Hpre. lia.
Qed.

(** C8 (as amended): on every heap of the data model, [find(v)] scans
    [[0, count)] upwards, returns normally and leaves the object as it is;
    it returns -1 when no live element equals [v] (so on an empty heap),
    and otherwise the first index whose element equals [v], narrowed to
    [int] by the [return]: this is the index itself when it is at most
    [INT_MAX], hence always when [count <= 2^31]. On no state at all does
    it throw. *)
Theorem find_first_index (h : binary_heap) (value : Z)
  (Hs : sized h = true) :
  (exists result,
     find value h = Ok result h /\
     ((result = -1 /\
       forall j, 0 <= j < _size h -> sel (_heap h) j <> value) \/
      (exists r, 0 <= r < _size h /\ sel (_heap h) r = value /\
                 (forall j, 0 <= j < r -> sel (_heap h) j <> value) /\
                 result = cast_int r /\ (r <= INT_MAX -> result = r))) /\
     (_size h <= INT_MAX + 1 ->
      (result = -1 /\
       forall j, 0 <= j < _size h -> sel (_heap h) j <> value) \/
      (0 <= result < _size h /\ sel (_heap h) result = value /\
       forall j, 0 <= j < result -> sel (_heap h) j <> value)) /\
     (_size h = 0 -> result = -1)) /\
  (forall h0 what h', find value h0 <> Throw what h').
Proof.
  split.
  - apply sized_spec in Hs as (Hlen & Hn & Hmax).
    destruct h as [sm n l]. cbn [_size _heap _sizeMax] in *.
    destruct (find_loop_narrow value sm n l (S (Z.to_nat n)) 0)
      as (result & Hrun & Hr); [lia|lia|lia|lia|lia|].
    exists result. split; [exact Hrun|].
    destruct Hr as [[-> Hnone]|(r & Hr & Hsel & Hfirst & ->)].
    + split; [by left|]. split; [by left|done].
    + split; [|split].
      * right. exists r. repeat split; try done; try lia.
        intros Hle. apply cast_int_small. lia.
      * intros Hsmall. right. rewrite cast_int_small by lia. done.
      * lia.
  - intros h0 what h' Hrun. pose proof (quiet_find value h0) as Hq.
    by rewrite Hrun in Hq.
Qed.

Lemma find_first_index_witness :
  let h := mk_heap 5 4 [9; 7; 8; 7; 7] in
  (exists result,
     find 7 h = Ok result h /\
     ((result = -1 /\ forall j, 0 <= j < _size h -> sel (_heap h) j <> 7) \/
      (exists r, 0 <= r < _size h /\ sel (_heap h) r = 7 /\
                 (forall j, 0 <= j < r -> sel (_heap h) j <> 7) /\
                 result = cast_int r /\ (r <= INT_MAX -> result = r))) /\
     (_size h <= INT_MAX + 1 ->
      (result = -1 /\ forall j, 0 <= j < _size h -> sel (_heap h) j <> 7) \/
      (0 <= result < _size h /\ sel (_heap h) result = 7 /\
       forall j, 0 <= j < result -> sel (_heap h) j <> 7)) /\
     (_size h = 0 -> result = -1)) /\
  (forall h0 what h', find 7 h0 <> Throw what h').
Proof.
  apply (find_first_index (mk_heap 5 4 [9; 7; 8; 7; 7]) 7). reflexivity.
Defined.

Lemma sel_zeros_then_one_low (m j : Z) :
  0 <= j < m -> sel (replicate (Z.to_nat m) 0 ++ [1]) j = 0.
Proof.
  intros Hj. unfold sel.
  rewrite lookup_app_l by (rewrite length_replicate; lia).
  rewrite lookup_replicate_2 by lia. reflexivity.
Qed.

Lemma sel_zeros_then_one_last (m : Z) :
  0 <= m -> sel (replicate (Z.to_nat m) 0 ++ [1]) m = 1.
Proof.
  intros Hm. unfold sel.
  rewrite (list_lookup_middle _ [] 1) by (by rewrite length_replicate).
  reflexivity.
Qed.

Lemma find_one_after_zeros (m cap result : Z) :
  0 <= m -> cap = m + 1 -> cap <= SIZE_MAX -> result = cast_int m ->
  find 1 (mk_heap cap cap (replicate (Z.to_nat m) 0 ++ [1]))
  = Ok result (mk_heap cap cap (replicate (Z.to_nat m) 0 ++ [1])).
Proof.
  intros Hm -> Hmax ->. set (l := replicate (Z.to_nat m) 0 ++ [1]).
  assert (Hlen : Z.of_nat (length l) = m + 1).
  { unfold l. rewrite length_app, length_replicate.
    change (length [1]) with 1%nat. lia. }
  destruct (find_loop_narrow 1 (m + 1) (m + 1) l (S (Z.to_nat (m + 1))) 0)
    as (result & Hrun & Hr); [lia|lia|lia|lia|lia|].
  assert (Hfind : find 1 (mk_heap (m + 1) (m + 1) l)
                  = Ok result (mk_heap (m + 1) (m + 1) l)) by exact Hrun.
  rewrite Hfind. f_equal. unfold l in *.
  destruct Hr as [[_ Hnone]|(r & Hr & Hsel & Hfirst & ->)].
  - destruct (Hnone m ltac:(lia)). by apply sel_zeros_then_one_last.
  - f_equal. destruct (decide (r = m)) as [->|Hne]; [reflexivity|].
    destruct (decide (r < m)) as [Hlt|Hge].
    + rewrite (sel_zeros_then_one_low m r) in Hsel by lia. discriminate.
    + destruct (Hfirst m ltac:(lia)). by apply sel_zeros_then_one_last.
Qed.

Lemma sized_zeros_then_one (m cap : Z) :
  0 <= m -> cap = m + 1 -> cap <= SIZE_MAX ->
  sized (mk_heap cap cap (replicate (Z.to_nat m) 0 ++ [1])) = true.
Proof.
  intros Hm -> Hmax. apply sized_spec. cbn [_size _heap _sizeMax].
  rewrite length_app, length_replicate. change (length [1]) with 1%nat.
  lia.
Qed.

(** C8 (as stated, refuted): a heap of 2^31 + 1 elements whose only
    element equal to 1 is at index 2^31. The [return i] of [find]
    narrows the [size_t] index to [int]: [find(1)] returns -2^31, neither
    the index of the element nor -1. *)
Lemma find_returns_narrowed_index :
  sized heap_one_at_2_31 = true /\
  0 <= 2147483648 < _size heap_one_at_2_31 /\
  sel (_heap heap_one_at_2_31) 2147483648 = 1 /\
  find 1 heap_one_at_2_31 = Ok (-2147483648) heap_one_at_2_31.
Proof.
  unfold heap_one_at_2_31. split; [|split; [|split]].
  - apply (sized_zeros_then_one 2147483648);
      [lia|reflexivity|unfold SIZE_MAX; lia].
  - cbn [_size]. lia.
  - cbn [_heap]. apply sel_zeros_then_one_last. lia.
  - apply (find_one_after_zeros 2147483648);
      [lia|reflexivity|unfold SIZE_MAX; lia|reflexivity].
Qed.

(** ** insert against the specification's insert *)

Lemma spec_sift_up_steps (s1 : nat) : forall (s2 : nat) l k,
  (Z.to_nat k <= s1)%nat -> (Z.to_nat k <= s2)%nat ->
  spec_sift_up s1 l k = spec_sift_up s2 l k.
Proof.
  induction s1 as [|s1 IH]; intros [|s2] l k H1 H2; cbn [spec_sift_up];
    try reflexivity.
  - replace (0 <? k) with false by lia. reflexivity.
  - replace (0 <? k) with false by lia. reflexivity.
  - destruct (Z.ltb_spec 0 k) as [Hpos|Hz]; [|reflexivity].
    cbn [andb]. destruct (sel l ((k - 1) / 2) <? sel l k); [|reflexivity].
    assert (0 <= (k - 1) / 2 < k).
    { pose proof (quot_parent k Hpos) as [Hq _].
      by rewrite Z.quot_div_nonneg in Hq by lia. }
    apply IH; lia.
Qed.

(** the loop of [sift_up], on an index inside the vector that an [int]
    holds, computes the specification's sift-up *)
Lemma sift_up_loop_refines fuel : forall k sm n l,
  (Z.to_nat k < fuel)%nat -> k < Z.of_nat (length l) -> k <= INT_MAX ->
  sift_up_loop fuel k (mk_heap sm n l)
  = Ok tt (mk_heap sm n (spec_sift_up (Z.to_nat k) l k)).
Proof.
  induction fuel as [|fuel IH]; intros k sm n l Hf Hk Hmax; [lia|].
  cbn [sift_up_loop]. destruct (Z.gtb_spec k 0) as [Hpos|Hz].
  - destruct (quot_parent k Hpos) as [Hp Hch].
    replace (Z.to_nat k) with (S (Z.to_nat (k - 1))) by lia.
    cbn [spec_sift_up]. rewrite <- Z.quot_div_nonneg by lia.
    set (p := Z.quot (k - 1) 2) in *. set (h := mk_heap sm n l).
    rewrite (bind_ok _ _ _ _ _ (heap_get_ok k h ltac:(simpl; lia))).
    rewrite (bind_ok _ _ _ _ _ (parent_ok k h ltac:(unfold INT_MIN; lia))).
    fold p.
    rewrite (bind_ok _ _ _ _ _ (heap_get_ok p h ltac:(simpl; lia))).
    cbn [_heap h]. replace (0 <? k) with true by lia. cbn [andb].
    rewrite Z.gtb_ltb. destruct (sel l p <? sel l k); [|reflexivity].
    rewrite (bind_ok _ _ _ _ _ (parent_ok k h ltac:(unfold INT_MIN; lia))).
    fold p.
    rewrite (bind_ok _ _ _ _ _
               (heap_swap_ok p k h ltac:(simpl; lia) ltac:(simpl; lia))).
    rewrite (bind_ok _ _ _ _ _ (parent_ok k _ ltac:(unfold INT_MIN; lia))).
    fold p.
    etrans; [apply (IH p sm n (swapZ l p k)); rewrite ?length_swapZ; lia|].
    do 2 f_equal. apply spec_sift_up_steps; lia.
  - replace (Z.to_nat k) with 0%nat by lia. reflexivity.
Qed.

(** C6 (as amended): [insert(value)] throws if and only if
    [count == capacity]; the exception is the "full" [runtime_error] and
    the object is as before the call; otherwise, on a heap of the data
    model whose count an [int] holds ([count <= INT_MAX]), it returns
    with the object the specification's insert describes: [value] written
    at index [count], [count] incremented, and that element sifted up by
    the specification's SiftUp. *)
Theorem insert_full_or_append (h : binary_heap) (value : Z) :
  ((exists what h', insert value h = Throw what h') <-> _size h = _sizeMax h) /\
  (forall what h',
     insert value h = Throw what h' ->
     what = "binary_heap is full!" /\ h' = h) /\
  (sized h = true -> _size h <= INT_MAX -> _size h <> _sizeMax h ->
   insert value h = Ok tt (spec_insert h value)).
Proof.
  assert (Hbody : forall what h', insert_body value h <> Throw what h').
  { intros what h' Hrun. pose proof (quiet_insert_body value h) as Hq.
    by rewrite Hrun in Hq. }
  destruct (insert_cases value h) as [[Hfull Hrun]|[Hroom Hrun]];
    rewrite Hrun.
  - split; [split; [done|eauto]|]. split; [|done].
    intros what h' Heq. by injection Heq as <- <-.
  - split; [split; [|done]|].
    { intros (what & h' & Heq). by destruct (Hbody what h'). }
    split; [intros what h' Heq; by destruct (Hbody what h')|].
    intros Hs Hint _. apply sized_spec in Hs as (Hlen & Hn & Hmax).
    unfold SIZE_MAX in Hmax. pose proof Hint as Hint'.
    unfold INT_MAX in Hint'.
    destruct h as [sm n l]. cbn [_size _heap _sizeMax] in *.
    unfold insert_body, spec_insert. cbn [_size _heap _sizeMax].
    erewrite (bind_ok _ _ _ tt (mk_heap sm (n + 1) l)).
    2:{ unfold with_size. simpl. f_equal. f_equal.
        apply wrap_size_t_small. unfold SIZE_MAX. lia. }
    rewrite bind_size. cbn [_size].
    replace (n + 1 - 1) with n by lia.
    rewrite wrap_size_t_small by (unfold SIZE_MAX; lia).
    rewrite (bind_ok _ _ _ _ _
               (heap_set_ok n value (mk_heap sm (n + 1) l) ltac:(simpl; lia))).
    unfold with_heap. cbn [_size _heap _sizeMax].
    rewrite bind_size. cbn [_size].
    replace (n + 1 - 1) with n by lia.
    rewrite wrap_size_t_small by (unfold SIZE_MAX; lia).
    rewrite cast_int_small by lia.
    unfold sift_up. apply sift_up_loop_refines; [lia| |lia].
    rewrite length_insert. lia.
Qed.

Lemma insert_full_or_append_witness :
  insert 7 (mk_heap 3 1 [5; 0; 0])
  = Ok tt (spec_insert (mk_heap 3 1 [5; 0; 0]) 7).
Proof.
  apply (proj2 (proj2 (insert_full_or_append (mk_heap 3 1 [5; 0; 0]) 7)));
    [reflexivity|vm_compute; discriminate|simpl; lia].
Defined.

Lemma sift_up_not_positive k h : k <= 0 -> sift_up k h = Ok tt h.
Proof.
  intros Hk. unfold sift_up. cbn [sift_up_loop].
  by replace (k >? 0) with false by lia.
Qed.

Lemma sel_zeros (k : nat) (j : Z) : sel (replicate k 0) j = 0.
Proof.
  unfold sel. destruct (replicate k 0 !! Z.to_nat j) as [x|] eqn:Hx;
    [|reflexivity].
  by apply lookup_replicate in Hx as [-> _].
Qed.

(** when the count does not fit an [int], [insert] passes a non-positive
    index to [sift_up], which leaves the new element where it was written *)
Lemma insert_count_past_int sm n l v :
  Z.of_nat (length l) = sm -> 0 <= n < sm -> sm <= SIZE_MAX ->
  cast_int n <= 0 ->
  insert v (mk_heap sm n l)
  = Ok tt (mk_heap sm (n + 1) (<[Z.to_nat n := v]> l)).
Proof.
  intros Hlen Hn Hmax Hcast. unfold SIZE_MAX in Hmax.
  destruct (insert_cases v (mk_heap sm n l)) as [[Hfull _]|[_ ->]].
  { cbn [_size _sizeMax] in Hfull. lia. }
  unfold insert_body.
  erewrite (bind_ok _ _ _ tt (mk_heap sm (n + 1) l)).
  2:{ unfold with_size. cbn [_size _heap _sizeMax]. f_equal. f_equal.
      apply wrap_size_t_small. unfold SIZE_MAX. lia. }
  rewrite bind_size. cbn [_size].
  replace (n + 1 - 1) with n by lia.
  rewrite wrap_size_t_small by (unfold SIZE_MAX; lia).
  rewrite (bind_ok _ _ _ _ _
             (heap_set_ok n v (mk_heap sm (n + 1) l)
                ltac:(cbn [_heap]; lia))).
  unfold with_heap. cbn [_size _heap _sizeMax].
  rewrite bind_size. cbn [_size].
  replace (n + 1 - 1) with n by lia.
  rewrite wrap_size_t_small by (unfold SIZE_MAX; lia).
  by apply sift_up_not_positive.
Qed.

(** C6 (as stated, refuted): on a heap of 2^31 zeros with room for one
    more, [insert(1)] does not throw, writes the 1 at index 2^31 and
    increments the count, but calls [sift_up(-2^31)], the count narrowed
    to [int]: the 1 stays below its parent, index 2^30 - 1, which holds
    a 0. *)
Lemma insert_at_2_31_does_not_sift :
  sized heap_2_31_zeros = true /\
  _size heap_2_31_zeros <> _sizeMax heap_2_31_zeros /\
  max_heap (_size heap_2_31_zeros) (_heap heap_2_31_zeros) /\
  exists h',
    insert 1 heap_2_31_zeros = Ok tt h' /\
    _size h' = 2147483649 /\
    sel (_heap h') 2147483648 = 1 /\
    child 1073741823 2147483648 /\
    sel (_heap h') 1073741823 = 0 /\
    ~ max_heap (_size h') (_heap h').
Proof.
  unfold heap_2_31_zeros. cbn [_size _heap _sizeMax].
  set (l := replicate (Z.to_nat 2147483649) 0).
  assert (Hlen : Z.of_nat (length l) = 2147483649).
  { unfold l. rewrite length_replicate. lia. }
  split; [apply sized_spec; cbn [_size _heap _sizeMax];
          unfold SIZE_MAX; lia|].
  split; [lia|]. split.
  { intros i c _ _ _. unfold l. rewrite !sel_zeros. lia. }
  exists (mk_heap 2147483649 (2147483648 + 1)
            (<[Z.to_nat 2147483648 := 1]> l)).
  assert (Hnew : sel (<[Z.to_nat 2147483648 := 1]> l) 2147483648 = 1).
  { rewrite sel_insert by lia. by rewrite decide_True by reflexivity. }
  assert (Hpar : sel (<[Z.to_nat 2147483648 := 1]> l) 1073741823 = 0).
  { rewrite sel_insert by lia. rewrite decide_False by lia.
    unfold l. apply sel_zeros. }
  assert (Hch : child 1073741823 2147483648) by (unfold child; lia).
  split.
  { apply insert_count_past_int;
      [exact Hlen|lia|unfold SIZE_MAX; lia|vm_compute; discriminate]. }
  cbn [_size _heap]. split; [reflexivity|]. split; [exact Hnew|].
  split; [exact Hch|]. split; [exact Hpar|].
  intros Hheap.
  pose proof (Hheap 1073741823 2147483648 ltac:(lia) ltac:(lia) Hch) as Hle.
  rewrite Hnew, Hpar in Hle. lia.
Qed.

(** ** 2^30 + 1 elements: the child index leaves [int] *)

Lemma left_child_fits k h :
  0 <= k -> 2 * k + 1 <= INT_MAX -> left_child k h = Ok (2 * k + 1) h.
Proof.
  intros Hk Hb. unfold left_child.
  rewrite (bind_ok _ _ _ _ _
             (int_arith_ok (2 * k) h ltac:(unfold INT_MIN; lia))).
  apply int_arith_ok. unfold INT_MIN; lia.
Qed.

Lemma right_child_overflows k h :
  0 <= k -> 2 * k <= INT_MAX -> INT_MAX < 2 * k + 2 ->
  right_child k h = Undefined.
Proof.
  intros Hk Hb Hov. unfold right_child.
  rewrite (bind_ok _ _ _ _ _
             (int_arith_ok (2 * k) h ltac:(unfold INT_MIN; lia))).
  unfold int_arith, in_int.
  by replace ((INT_MIN <=? 2 * k + 2) && (2 * k + 2 <=? INT_MAX))
    with false by lia.
Qed.

(** [sift_down] from an index of the left spine, on a heap of [n = 2^30]
    live elements where the sifted element is the smallest and the others
    are [-j] at index [j]: it follows the left spine down to index
    [n - 1], where [right_child] overflows *)
Lemma sift_down_rec_left_spine (n : Z) (i : nat) : forall fuel k sm l,
  2 * n = INT_MAX + 1 ->
  (i < fuel)%nat -> 0 <= k -> (k + 1) * 2 ^ Z.of_nat i = n ->
  n < Z.of_nat (length l) ->
  sel l k = - n -> (forall j, k < j <= n -> sel l j = - j) ->
  sift_down_rec fuel k (mk_heap sm n l) = Undefined.
Proof.
  induction i as [|i IH]; intros fuel k sm l Hn Hf Hk Hpow Hlen Hx Hrest.
  - destruct fuel as [|fuel]; [lia|].
    change (2 ^ Z.of_nat 0) with 1 in Hpow.
    cbn [sift_down_rec]. set (h := mk_heap sm n l).
    rewrite (bind_ok _ _ _ _ _ (left_child_fits k h ltac:(lia) ltac:(lia))).
    apply bind_undefined, right_child_overflows; lia.
  - destruct fuel as [|fuel]; [lia|].
    rewrite Nat2Z.inj_succ, Z.pow_succ_r in Hpow by lia.
    assert (Hp : 0 < 2 ^ Z.of_nat i) by (apply Z.pow_pos_nonneg; lia).
    assert (Hc : 2 * k + 2 <= n) by nia.
    pose proof Hn as Hn'. unfold INT_MAX in Hn'.
    rewrite sift_down_rec_step by (unfold INT_MAX; lia). cbv zeta.
    assert (Hm : max_index n l k = 2 * k + 1).
    { unfold max_index.
      replace (2 * k + 1 <=? n) with true by lia.
      replace (2 * k + 2 <=? n) with true by lia.
      rewrite Hx, (Hrest (2 * k + 1)), (Hrest (2 * k + 2)) by lia.
      replace (- (2 * k + 1) >? - n) with true by lia.
      rewrite (Hrest (2 * k + 1)) by lia.
      by replace (- (2 * k + 2) >? - (2 * k + 1)) with false by lia. }
    rewrite Hm. replace (negb (k =? 2 * k + 1)) with true by lia.
    apply IH; try lia.
    + rewrite length_swapZ. lia.
    + rewrite sel_swapZ by lia. rewrite decide_True by reflexivity.
      exact Hx.
    + intros j Hj. rewrite sel_swapZ by lia.
      rewrite !decide_False by lia. apply Hrest. lia.
Qed.

(** [extract_top] with 2^30 + 1 live elements, [-j] at every index
    [j >= 1] *)
Lemma extract_top_overflows sm n l :
  n = 1073741824 -> n < Z.of_nat (length l) ->
  (forall j, 1 <= j <= n -> sel l j = - j) ->
  extract_top (mk_heap sm (n + 1) l) = Undefined.
Proof.
  intros Hn Hlen Hrest. unfold extract_top.
  set (h := mk_heap sm (n + 1) l).
  rewrite (bind_ok _ _ _ _ _ (heap_get_ok 0 h ltac:(cbn [_heap h]; lia))).
  rewrite bind_size. cbn [_size h].
  replace (n + 1 - 1) with n by lia.
  rewrite wrap_size_t_small by (unfold SIZE_MAX; lia).
  rewrite (bind_ok _ _ _ _ _ (heap_get_ok n h ltac:(cbn [_heap h]; lia))).
  rewrite (bind_ok _ _ _ _ _
             (heap_set_ok 0 _ h ltac:(cbn [_heap h]; lia))).
  cbn [_heap h]. rewrite (Hrest n) by lia.
  set (l1 := <[Z.to_nat 0 := - n]> l).
  erewrite (bind_ok _ _ _ tt (mk_heap sm n l1)).
  2:{ unfold with_size, with_heap, h. cbn [_size _heap _sizeMax].
      f_equal. f_equal. replace (n + 1 - 1) with n by lia.
      apply wrap_size_t_small. unfold SIZE_MAX. lia. }
  apply bind_undefined. unfold sift_down. cbn [_size].
  apply (sift_down_rec_left_spine n 30).
  - unfold INT_MAX. lia.
  - rewrite cast_int_small by (unfold INT_MAX; lia). lia.
  - lia.
  - rewrite Hn. reflexivity.
  - unfold l1. rewrite length_insert. lia.
  - unfold l1. rewrite sel_insert by lia. by rewrite decide_True by reflexivity.
  - intros j Hj. unfold l1. rewrite sel_insert by lia.
    rewrite decide_False by lia. apply Hrest. lia.
Qed.

Lemma sel_descending (n j : Z) : 0 <= j < n -> sel (descending n) j = - j.
Proof.
  intros Hj. unfold sel, descending.
  rewrite list_lookup_fmap, lookup_seqZ_lt by lia.
  simpl. lia.
Qed.

Lemma length_descending (n : Z) : length (descending n) = Z.to_nat n.
Proof. unfold descending. by rewrite length_fmap, length_seqZ. Qed.

Lemma max_heap_descending (n : Z) : max_heap n (descending n).
Proof.
  intros i c Hi Hc Hch. unfold child in Hch.
  rewrite !sel_descending by lia. lia.
Qed.

Lemma no_sentinel_intro h :
  _size h <= Z.of_nat (length (_heap h)) ->
  (forall j, 0 <= j < _size h -> INT_MIN <= sel (_heap h) j < INT_MAX) ->
  no_sentinel h = true.
Proof.
  intros Hlen Hall. unfold no_sentinel. apply forallb_forall.
  intros x Hx%list_elem_of_In.
  apply elem_of_take_sel in Hx as (j & Hj & <-); [|lia].
  specialize (Hall j Hj). unfold in_T, in_int, T_max. lia.
Qed.

Lemma remove_root_overflows sm n l :
  n = 1073741824 -> n < Z.of_nat (length l) ->
  (forall j, 1 <= j <= n -> sel l j = - j) ->
  remove 0 (mk_heap sm (n + 1) l) = Undefined.
Proof.
  intros Hn Hlen Hrest. unfold remove.
  rewrite (bind_ok _ _ _ _ _
             (heap_set_ok 0 T_max (mk_heap sm (n + 1) l)
                ltac:(cbn [_heap]; lia))).
  unfold with_heap. cbn [_size _heap _sizeMax].
  rewrite (bind_ok _ _ _ _ _ (sift_up_not_positive 0 _ ltac:(lia))).
  apply bind_undefined.
  apply extract_top_overflows; [exact Hn|rewrite length_insert; lia|].
  intros j Hj. rewrite sel_insert by lia. rewrite decide_False by lia.
  apply Hrest. lia.
Qed.

(** C5 (as stated, refuted): the full heap of the 2^30 + 1 elements
    0, -1, ..., -2^30 satisfies the invariant and holds no sentinel;
    [remove(0)] overwrites the root, extracts it, and the [sift_down] of
    the last element reaches index 2^30 - 1, whose right child index 2^31
    is not an [int]: the call has undefined behaviour and removes
    nothing. *)
Lemma remove_overflows_child_index :
  sized heap_2_30_plus_1 = true /\
  heap_ok heap_2_30_plus_1 = true /\
  no_sentinel heap_2_30_plus_1 = true /\
  0 <= 0 < _size heap_2_30_plus_1 /\
  remove 0 heap_2_30_plus_1 = Undefined.
Proof.
  split; [|split; [|split; [|split]]].
  - apply sized_spec. unfold heap_2_30_plus_1. cbn [_size _heap _sizeMax].
    rewrite length_descending. unfold SIZE_MAX. lia.
  - apply is_max_heap_spec. unfold heap_2_30_plus_1. cbn [_size _heap].
    apply max_heap_descending.
  - apply no_sentinel_intro; unfold heap_2_30_plus_1; cbn [_size _heap].
    + rewrite length_descending. lia.
    + intros j Hj. rewrite sel_descending by lia.
      unfold INT_MIN, INT_MAX. lia.
  - unfold heap_2_30_plus_1. cbn [_size]. lia.
  - unfold heap_2_30_plus_1.
    apply (remove_root_overflows 1073741825 1073741824).
    + reflexivity.
    + rewrite length_descending. lia.
    + intros j Hj. apply sel_descending. lia.
Qed.

Lemma insert_all_cons v vs h :
  insert_all (v :: vs) h = (insert v ;;; insert_all vs) h.
Proof. reflexivity. Qed.

Lemma extract_n_S n h :
  extract_n (S n) h
  = (x <~ extract_top ;; xs <~ extract_n n ;; ret (x :: xs)) h.
Proof. reflexivity. Qed.

Lemma descending_from_cons (n : Z) (m : nat) :
  Z.opp <$> seqZ n (Z.of_nat (S m))
  = - n :: (Z.opp <$> seqZ (n + 1) (Z.of_nat m)).
Proof.
  rewrite seqZ_cons by lia.
  replace (Z.pred (Z.of_nat (S m))) with (Z.of_nat m) by lia.
  reflexivity.
Qed.

(** an element not above its parent stays where [insert] wrote it *)
Lemma insert_below_parent sm n l v :
  Z.of_nat (length l) = sm -> 0 <= n < sm -> sm <= SIZE_MAX ->
  n <= INT_MAX -> (0 < n -> v <= sel l ((n - 1) / 2)) ->
  insert v (mk_heap sm n l)
  = Ok tt (mk_heap sm (n + 1) (<[Z.to_nat n := v]> l)).
Proof.
  intros Hlen Hn Hmax Hint Hpar. unfold SIZE_MAX in Hmax.
  pose proof Hint as Hint'. unfold INT_MAX in Hint'.
  destruct (insert_cases v (mk_heap sm n l)) as [[Hfull _]|[_ ->]].
  { cbn [_size _sizeMax] in Hfull. lia. }
  unfold insert_body.
  erewrite (bind_ok _ _ _ tt (mk_heap sm (n + 1) l)).
  2:{ unfold with_size. cbn [_size _heap _sizeMax]. f_equal. f_equal.
      apply wrap_size_t_small. unfold SIZE_MAX. lia. }
  rewrite bind_size. cbn [_size].
  replace (n + 1 - 1) with n by lia.
  rewrite wrap_size_t_small by (unfold SIZE_MAX; lia).
  rewrite (bind_ok _ _ _ _ _
             (heap_set_ok n v (mk_heap sm (n + 1) l)
                ltac:(cbn [_heap]; lia))).
  unfold with_heap. cbn [_size _heap _sizeMax].
  rewrite bind_size. cbn [_size].
  replace (n + 1 - 1) with n by lia.
  rewrite wrap_size_t_small by (unfold SIZE_MAX; lia).
  rewrite cast_int_small by lia.
  unfold sift_up.
  rewrite sift_up_loop_refines by (rewrite ?length_insert; lia).
  do 2 f_equal.
  destruct (decide (n = 0)) as [->|Hpos]; [reflexivity|].
  replace (Z.to_nat n) with (S (Z.to_nat (n - 1))) at 1 by lia.
  cbn [spec_sift_up].
  assert (0 <= (n - 1) / 2 < n).
  { pose proof (quot_parent n ltac:(lia)) as [Hq _].
    by rewrite Z.quot_div_nonneg in Hq by lia. }
  rewrite !sel_insert by lia.
  rewrite decide_False by lia. rewrite decide_True by reflexivity.
  specialize (Hpar ltac:(lia)).
  replace (sel l ((n - 1) / 2) <? v) with false by lia.
  by rewrite andb_false_r.
Qed.

Lemma insert_all_descending (m : nat) : forall sm n l,
  Z.of_nat (length l) = sm -> 0 <= n -> n + Z.of_nat m <= sm ->
  sm <= SIZE_MAX -> n + Z.of_nat m <= INT_MAX + 1 ->
  (forall j, 0 <= j < n -> sel l j = - j) ->
  exists l',
    insert_all (Z.opp <$> seqZ n (Z.of_nat m)) (mk_heap sm n l)
    = Ok tt (mk_heap sm (n + Z.of_nat m) l') /\
    length l' = length l /\
    forall j, 0 <= j < n + Z.of_nat m -> sel l' j = - j.
Proof.
  induction m as [|m IH]; intros sm n l Hlen Hn Hcap Hmax Hint Hsel.
  - exists l. change (Z.of_nat 0) with 0. rewrite Z.add_0_r.
    split; [reflexivity|]. split; [reflexivity|exact Hsel].
  - rewrite descending_from_cons, insert_all_cons.
    rewrite (bind_ok _ _ _ _ _
               (insert_below_parent sm n l (- n) Hlen ltac:(lia) Hmax
                  ltac:(lia)
                  ltac:(intros Hpos;
                        assert (0 <= (n - 1) / 2 < n)
                          by (pose proof (quot_parent n Hpos) as [Hq _];
                              by rewrite Z.quot_div_nonneg in Hq by lia);
                        rewrite Hsel by lia; lia))).
    destruct (IH sm (n + 1) (<[Z.to_nat n := - n]> l))
      as (l' & Hrun & Hlen' & Hsel').
    + rewrite length_insert. exact Hlen.
    + lia.
    + lia.
    + exact Hmax.
    + lia.
    + intros j Hj. rewrite sel_insert by lia.
      case_decide; [by subst|apply Hsel; lia].
    + exists l'. replace (n + Z.of_nat (S m)) with (n + 1 + Z.of_nat m) by lia.
      split; [exact Hrun|]. split; [|exact Hsel'].
      by rewrite Hlen', length_insert.
Qed.

Lemma insert_descending_then_extract (N n : Z) :
  n = 1073741824 -> N = n + 1 ->
  (insert_all (descending N) ;;; extract_n (length (descending N)))
    (binary_heap_sized N) = Undefined.
Proof.
  intros Hn HN. unfold binary_heap_sized.
  set (l := replicate (Z.to_nat N) T_default).
  assert (Hlen : Z.of_nat (length l) = N).
  { unfold l. rewrite length_replicate. lia. }
  destruct (insert_all_descending (Z.to_nat N) N 0 l)
    as (l' & Hrun & Hlen' & Hsel).
  { exact Hlen. } { lia. } { lia. } { unfold SIZE_MAX. lia. }
  { unfold INT_MAX. lia. } { intros j Hj. lia. }
  rewrite Z2Nat.id in Hrun by lia.
  replace (0 + Z.of_nat (Z.to_nat N)) with (n + 1) in Hsel by lia.
  replace (0 + N) with (n + 1) in Hrun by lia.
  fold (descending N) in Hrun.
  rewrite (bind_ok _ _ _ _ _ Hrun).
  rewrite length_descending.
  replace (Z.to_nat N) with (S (Z.to_nat n)) by lia.
  rewrite extract_n_S.
  apply bind_undefined, extract_top_overflows; [exact Hn|lia|].
  intros j Hj. apply Hsel. lia.
Qed.

(** C2 (as stated, refuted): on [binary_heap(2^30 + 1)], inserting the
    2^30 + 1 values 0, -1, ..., -2^30 fills the heap without a swap; the
    first [extract_top] then sifts the last value down the left spine to
    index 2^30 - 1, whose right child index 2^31 is not an [int]: the
    extractions have undefined behaviour instead of returning the values
    in non-increasing order. *)
Lemma insert_then_extract_overflows :
  Z.of_nat (length (descending 1073741825)) <= 1073741825 /\
  (insert_all (descending 1073741825) ;;;
   extract_n (length (descending 1073741825)))
    (binary_heap_sized 1073741825) = Undefined.
Proof.
  split.
  - rewrite length_descending. lia.
  - apply (insert_descending_then_extract 1073741825 1073741824);
      reflexivity.
Qed.

End BinaryHeap.
